(** * Running stitch, segment splitters and bean stitch

    A shallow embedding of [lib/stitches/running_stitch.py] and the
    properties its specification states about it.

    Numbers.  The module is embedded twice.  The first embedding computes in
    exact arithmetic: a Python float is a real number [R], and a statement
    about it says what the code does up to rounding.  It carries the
    properties that do not turn on the last bit of a float: which points are
    stitched, first and last points, counts of the splitters, errors.  The
    second embedding, [Binary64], repeats [running_stitch] and
    [split_segment_random_phase] over primitive binary64 floats, operation
    for operation, and is evaluated where rounding decides what the code
    does: the accumulated [distance] and [progress] of the two loops, and
    [interpolate] next to the end of a segment.
    Integers ([segments], the entries of [repeats], [num_stitches]) are [Z].
    Exceptions and loops: a call has an [outcome]; the two unbounded loops
    of the module ([while] in [running_stitch], the walk over the infinite
    generator in [split_segment_random_phase]) take a fuel argument. *)

From Stdlib Require Import String.
From Stdlib Require Import Reals Lra Lia ZArith List Bool Sorted.
From Stdlib Require PrimFloat FloatOps SpecFloat.
Import ListNotations.

Set Implicit Arguments.

(** ** Outcomes of a call *)

Inductive exn : Type :=
| ZeroDivisionError
| IndexError
| OverflowError
| ValueError.

Inductive outcome (A : Type) : Type :=
| Returns (a : A)
| Raises (e : exn)
| OutOfFuel.

Arguments Returns {A} a.
Arguments Raises {A} e.
Arguments OutOfFuel {A}.

Definition bind {A B : Type} (m : outcome A) (k : A -> outcome B) : outcome B :=
  match m with
  | Returns a => k a
  | Raises e => Raises e
  | OutOfFuel => OutOfFuel
  end.

Notation "x <- m ;; k" := (bind m (fun x => k))
  (at level 61, m at next level, right associativity).

(** ** Python list helpers *)

Section PyList.
Context {A : Type}.

(** [l[-2:]]: the last two elements, the whole list when it is shorter. *)
Definition last_two (l : list A) : list A := skipn (length l - 2) l.

(** [l[-1]], which raises [IndexError] on the empty list. *)
Definition py_last (l : list A) : outcome A :=
  match rev l with
  | [] => Raises IndexError
  | a :: _ => Returns a
  end.

(** [l[start:stop]] for [0 <= start], [0 <= stop]. *)
Definition slice (l : list A) (start stop : nat) : list A :=
  firstn (stop - start) (skipn start l).

(** [f] applied [n] times. *)
Fixpoint iterate (n : nat) (f : A -> A) (a : A) : A :=
  match n with
  | O => a
  | S n' => iterate n' f (f a)
  end.
End PyList.

(** ** bean_stitch *)

Section BeanStitch.
Context {A : Type}.

(** [for i in range(r): new_stitches.extend(copy(new_stitches[-2:]))];
    [range(r)] is empty for [r <= 0]. *)
Definition extend_repeats (r : Z) (new_stitches : list A) : list A :=
  iterate (Z.to_nat r) (fun l => l ++ last_two l) new_stitches.

(** The body of [for stitch in stitches], threading [repeat_list_pos] and
    [new_stitches]. *)
Fixpoint bean_loop (stitches : list A) (repeats : list Z)
         (repeat_list_pos : nat) (new_stitches : list A) : outcome (list A) :=
  match stitches with
  | [] => Returns new_stitches
  | stitch :: rest =>
      let new_stitches := new_stitches ++ [stitch] in
      match nth_error repeats repeat_list_pos with
      | None => Raises IndexError
      | Some r =>
          let new_stitches := extend_repeats r new_stitches in
          let repeat_list_pos := S repeat_list_pos in
          let repeat_list_pos :=
            if Nat.eqb repeat_list_pos (length repeats) then O else repeat_list_pos in
          bean_loop rest repeats repeat_list_pos new_stitches
      end
  end.

Definition bean_stitch (stitches : list A) (repeats : list Z) : outcome (list A) :=
  if Nat.ltb (length stitches) 2 then Returns stitches
  else
    match stitches with
    | [] => Raises IndexError
    | s0 :: _ => bean_loop stitches repeats 0 [s0]
    end.

(** The repeat count used for the [i]-th input stitch. *)
Definition repeat_at (repeats : list Z) (i : nat) : Z :=
  nth (i mod length repeats) repeats 0%Z.

(** What the [i]-th input stitch contributes: itself, then [r] copies of
    the pair (previous stitch, itself). *)
Definition bean_block (d : A) (stitches : list A) (repeats : list Z) (i : nat) : list A :=
  nth i stitches d
    :: concat (repeat [nth (pred i) stitches d; nth i stitches d]
                      (Z.to_nat (repeat_at repeats i))).
End BeanStitch.

(** ** Numbers *)

Open Scope R_scope.

(** Python's [a / b] on floats. *)
Definition fdiv (a b : R) : outcome R :=
  if Req_dec_T b 0 then Raises ZeroDivisionError else Returns (a / b).

(** [math.ceil]. *)
Definition ceil (x : R) : Z := (1 - up (- x))%Z.

(** ** Points

    Modelled from the spec: [Point] of [lib/utils/geometry.py], which is
    not among the sources: an ordered pair of real coordinates with
    subtraction, addition, scaling by a number, a length, a unit direction
    (undefined at length zero, where the division raises) and equality by
    value. *)

Record Point : Type := mkPoint { px : R; py : R }.

Definition as_tuple (p : Point) : R * R := (px p, py p).

Definition padd (p q : Point) : Point := mkPoint (px p + px q) (py p + py q).
Definition psub (p q : Point) : Point := mkPoint (px p - px q) (py p - py q).
Definition pscale (k : R) (p : Point) : Point := mkPoint (k * px p) (k * py p).
Definition plength (p : Point) : R := sqrt (px p * px p + py p * py p).

Definition punit (p : Point) : outcome Point :=
  k <- fdiv 1 (plength p) ;; Returns (pscale k p).

Definition Point_eq_dec (p q : Point) : {p = q} + {p <> q}.
Proof.
  destruct p as [a b], q as [c d].
  destruct (Req_dec_T a c) as [Hx | Hx];
    [destruct (Req_dec_T b d) as [Hy | Hy] |].
  - left. now subst.
  - right. intros H. inversion H. contradiction.
  - right. intros H. inversion H. contradiction.
Defined.

Definition tuple_eq_dec (p q : R * R) : {p = q} + {p <> q}.
Proof.
  destruct p as [a b], q as [c d].
  destruct (Req_dec_T a c) as [Hx | Hx];
    [destruct (Req_dec_T b d) as [Hy | Hy] |].
  - left. now subst.
  - right. intros H. inversion H. contradiction.
  - right. intros H. inversion H. contradiction.
Defined.

(** ** Line strings

    The part of shapely's [LineString] the module uses, over exact reals:
    the length, the distance between two points, and [interpolate] on a
    line of two points (a negative distance is measured back from the end,
    a distance outside the line is clipped to the nearer end). *)

Definition distance (a b : Point) : R := plength (psub b a).

Fixpoint linestring_length (l : list Point) : R :=
  match l with
  | p :: (q :: _) as rest => distance p q + linestring_length rest
  | _ => 0
  end.

(** The point at fraction [t] of the way from [a] to [b]. *)
Definition lerp (a b : Point) (t : R) : Point := padd a (pscale t (psub b a)).

Definition interpolate (a b : Point) (d : R) (normalized : bool) : Point :=
  let len := distance a b in
  let d := if normalized then d * len else d in
  let d := if Rlt_dec d 0 then len + d else d in
  if Rle_dec d 0 then a
  else if Rle_dec len d then b
  else lerp a b (d / len).

(** ** Sorting numbers: [sorted(splits)] *)

Fixpoint insert_sorted (x : R) (l : list R) : list R :=
  match l with
  | [] => [x]
  | y :: l' => if Rle_dec x y then x :: l else y :: insert_sorted x l'
  end.

Fixpoint py_sorted (l : list R) : list R :=
  match l with
  | [] => []
  | x :: l' => insert_sorted x (py_sorted l')
  end.

(** Elementwise combination of two arrays of the same length. *)
Definition zip_with {A B C : Type} (f : A -> B -> C) (l : list A) (m : list B) : list C :=
  map (fun ab => f (fst ab) (snd ab)) (combine l m).

(** ** The segment splitters *)

(** Modelled from the spec: the deterministic generator of
    [lib/utils/prng.py], which is not among the sources: from a seed and
    discriminator strings, one float, a sequence of [n] floats, or an
    unbounded sequence of floats (here: a function of the index). *)
Record PRNG : Type := mkPRNG {
  uniformFloat : list string -> R;
  nUniformFloats : nat -> list string -> list R;
  iterUniformFloats : list string -> nat -> R
}.

(** The interface the spec gives the generator: floats in [0,1), and [n]
    of them where [n] are asked for. *)
Definition unit_interval (u : R) : Prop := 0 <= u < 1.

Record prng_ok (g : PRNG) : Prop := mkPrngOk {
  uniformFloat_range : forall args, unit_interval (uniformFloat g args);
  nUniformFloats_length : forall n args, length (nUniformFloats g n args) = n;
  nUniformFloats_range : forall n args, Forall unit_interval (nUniformFloats g n args);
  iterUniformFloats_range : forall args i, unit_interval (iterUniformFloats g args i)
}.

Section Splitters.
Variable prng : PRNG.

(** [np.array(range(1, segments)) / segments] *)
Definition even_splits (segments : Z) : list R :=
  map (fun k => INR k / IZR segments) (seq 1 (Z.to_nat segments - 1)).

(** The positions [split_segment_even_n] interpolates at, in the order
    it does. *)
Definition even_n_positions (segments : Z) (jitter_sigma : R)
           (random_seed : option string) : list R :=
  let splits := even_splits segments in
  let splits :=
    match random_seed with
    | Some seed =>
        let jitters :=
          map (fun u => u * 2 - 1) (nUniformFloats prng (length splits) [seed]) in
        zip_with (fun s j => s + j * (jitter_sigma / IZR segments)) splits jitters
    | None => splits
    end in
  py_sorted splits.

Definition split_segment_even_n (a b : Point) (segments : Z) (jitter_sigma : R)
           (random_seed : option string) : list Point :=
  if (segments <=? 1)%Z then []
  else map (fun x => interpolate a b x true)
           (even_n_positions segments jitter_sigma random_seed).

Definition split_segment_even_dist (a b : Point) (max_length : R) (jitter_sigma : R)
           (random_seed : option string) : outcome (list Point) :=
  q <- fdiv (distance a b) max_length ;;
  Returns (split_segment_even_n a b (ceil q) jitter_sigma random_seed).

(** [for x in prng.iterUniformFloats(random_seed)]: [i] is the index of
    the next draw. *)
Fixpoint random_phase_loop (fuel : nat) (seed : string) (i : nat)
         (length length_sigma dist progress : R) (splits : list R)
  : outcome (list R) :=
  match fuel with
  | O => OutOfFuel
  | S fuel' =>
      let x := iterUniformFloats prng [seed] i in
      let progress := progress + length * (1 + length_sigma * (x - 0.5) * 2) in
      if Rge_dec progress dist then Returns splits
      else random_phase_loop fuel' seed (S i) length length_sigma dist progress
                             (splits ++ [progress])
  end.

(** The offsets [splits] of [split_segment_random_phase]. *)
Definition random_phase_splits (fuel : nat) (a b : Point) (length length_sigma : R)
           (random_seed : string) : outcome (list R) :=
  let progress := length * uniformFloat prng [random_seed; "phase"%string] in
  let dist := distance a b in
  if Rge_dec progress dist then Returns []
  else random_phase_loop fuel random_seed 0 length length_sigma dist progress [progress].

Definition split_segment_random_phase (fuel : nat) (a b : Point)
           (length length_sigma : R) (random_seed : string) : outcome (list Point) :=
  splits <- random_phase_splits fuel a b length length_sigma random_seed ;;
  Returns (map (fun x => interpolate a b x false) splits).
End Splitters.

(** Strictly increasing lists of numbers. *)
Fixpoint strictly_increasing (l : list R) : Prop :=
  match l with
  | x :: (y :: _) as rest => x < y /\ strictly_increasing rest
  | _ => True
  end.

(** ** running_stitch *)

(** [[i for i, point in enumerate(points) if keep(point)]], with the
    enumeration starting at [start]. *)
Definition indices_where (keep : Point -> bool) (start : nat) (points : list Point)
  : list nat :=
  map fst (filter (fun ip => keep (snd ip)) (combine (seq start (length points)) points)).

Section RunningStitch.
(** [LineString.simplify(tolerance, preserve_topology=False)] on the
    coordinates of the path: an external collaborator. *)
Variable simplify : list (R * R) -> R -> list (R * R).

(** [point.as_tuple() in important_points] *)
Definition is_important (important_points : list (R * R)) (point : Point) : bool :=
  if in_dec tuple_eq_dec (as_tuple point) important_points then true else false.

Definition important_point_indices (points : list Point) (tolerance : R) : list nat :=
  let important_points := simplify (map as_tuple points) tolerance in
  indices_where (is_important important_points) 0 points.

(** [zip(important_point_indices[:-1], important_point_indices[1:])] *)
Definition section_bounds (indices : list nat) : list (nat * nat) :=
  combine (removelast indices) (tl indices).

(** [while distance < segment_length: ...]; returns the final [distance]
    and [output]. *)
Fixpoint walk_while (fuel : nat) (segment_start segment_direction : Point)
         (segment_length actual_stitch_length dist : R) (output : list Point)
  : outcome (R * list Point) :=
  match fuel with
  | O => OutOfFuel
  | S fuel' =>
      if Rlt_dec dist segment_length then
        walk_while fuel' segment_start segment_direction segment_length
                   actual_stitch_length (dist + actual_stitch_length)
                   (output ++ [padd segment_start (pscale dist segment_direction)])
      else Returns (dist, output)
  end.

(** The body of [for segment_end in section[1:]], up to the update of
    [distance] and [segment_start]: returns the [distance] the [while] loop
    ended with and [output]. *)
Definition walk_segment (fuel : nat) (segment_start segment_end : Point)
           (actual_stitch_length dist : R) (output : list Point)
  : outcome (R * list Point) :=
  let segment := psub segment_end segment_start in
  let segment_length := plength segment in
  if Rlt_dec dist segment_length then
    segment_direction <- punit segment ;;
    walk_while fuel segment_start segment_direction segment_length
               actual_stitch_length dist output
  else Returns (dist, output).

(** [for segment_end in section[1:]: ...] *)
Fixpoint walk_segments (fuel : nat) (segment_start : Point) (rest : list Point)
         (actual_stitch_length dist : R) (output : list Point)
  : outcome (list Point) :=
  match rest with
  | [] => Returns output
  | segment_end :: rest' =>
      r <- walk_segment fuel segment_start segment_end actual_stitch_length dist output ;;
      walk_segments fuel segment_end rest' actual_stitch_length
                    (fst r - plength (psub segment_end segment_start)) (snd r)
  end.

(** [if not output or output[-1] != section[0]: output.append(section[0])] *)
Definition append_if_new (output : list Point) (section0 : Point) : list Point :=
  match rev output with
  | [] => output ++ [section0]
  | output_last :: _ =>
      if Point_eq_dec output_last section0 then output
      else output ++ [section0]
  end.

(** One iteration of [for start, end in zip(...)]. *)
Definition walk_section (fuel : nat) (points : list Point) (stitch_length : R)
           (bounds : nat * nat) (output : list Point) : outcome (list Point) :=
  let section := slice points (fst bounds) (snd bounds + 1) in
  match section with
  | [] => Raises IndexError
  | section0 :: section_tail =>
      let output := append_if_new output section0 in
      let section_length := linestring_length section in
      if Rgt_dec section_length stitch_length then
        q <- fdiv section_length stitch_length ;;
        let num_stitches := ceil q in
        actual_stitch_length <- fdiv section_length (IZR num_stitches) ;;
        walk_segments fuel section0 section_tail actual_stitch_length
                      actual_stitch_length output
      else Returns output
  end.

Fixpoint walk_sections (fuel : nat) (points : list Point) (stitch_length : R)
         (bounds : list (nat * nat)) (output : list Point) : outcome (list Point) :=
  match bounds with
  | [] => Returns output
  | b :: bounds' =>
      output <- walk_section fuel points stitch_length b output ;;
      walk_sections fuel points stitch_length bounds' output
  end.

Definition running_stitch (fuel : nat) (points : list Point)
           (stitch_length tolerance : R) : outcome (list Point) :=
  if Nat.ltb (length points) 2 then Returns []
  else
    let indices := important_point_indices points tolerance in
    output <- walk_sections fuel points stitch_length (section_bounds indices) [] ;;
    points_last <- py_last points ;;
    output_last <- py_last output ;;
    if Point_eq_dec points_last output_last then Returns output
    else Returns (output ++ [points_last]).

(** What the spec asks of the simplifier: it keeps the first and the last
    point of its input. *)
Definition simplify_keeps_ends : Prop :=
  forall (coords : list (R * R)) (tolerance : R) (c : R * R),
    (hd_error coords = Some c \/ hd_error (rev coords) = Some c) ->
    In c (simplify coords tolerance).
End RunningStitch.

(** The point at distance [s] along a polyline, measured from its first
    point. *)
Fixpoint point_at (path : list Point) (s : R) : Point :=
  match path with
  | [] => mkPoint 0 0
  | p :: rest =>
      match rest with
      | [] => p
      | q :: _ =>
          if Rlt_dec s (distance p q)
          then padd p (pscale (s / distance p q) (psub q p))
          else point_at rest (s - distance p q)
      end
  end.

(** Two simplifiers to run the walk with: one keeps every vertex, one only
    the two ends. *)
Definition simplify_keep_all (coords : list (R * R)) (tolerance : R) : list (R * R) :=
  coords.

Definition simplify_ends_only (coords : list (R * R)) (tolerance : R) : list (R * R) :=
  match coords with
  | [] => []
  | c :: _ => [c; last coords c]
  end.

(** * The same code over binary64 floats

    The definitions above compute in exact arithmetic.  The module below
    embeds the functions whose results depend on the rounding of Python's
    floats ([running_stitch] and [split_segment_random_phase]) over Rocq's
    primitive binary64 floats, operation for operation, so that a run can be
    evaluated as the interpreter evaluates it. *)

Module Binary64.
Import PrimFloat.
Local Open Scope float_scope.

(** Python's [a / b] on floats. *)
Definition fdiv (a b : float) : outcome float :=
  if b =? 0 then Raises ZeroDivisionError else Returns (a / b).

(** [math.ceil]: the least integer not below [x]; an infinity is an
    [OverflowError], a NaN a [ValueError]. *)
Definition ceil (x : float) : outcome Z :=
  match FloatOps.Prim2SF x with
  | SpecFloat.S754_zero _ => Returns 0%Z
  | SpecFloat.S754_finite negative m e =>
      let magnitude :=
        if (0 <=? e)%Z then (Z.pos m * 2 ^ e)%Z
        else if negative then (Z.pos m / 2 ^ (- e))%Z
        else ((Z.pos m + 2 ^ (- e) - 1) / 2 ^ (- e))%Z in
      Returns (if negative then (- magnitude)%Z else magnitude)
  | SpecFloat.S754_infinity _ => Raises OverflowError
  | SpecFloat.S754_nan => Raises ValueError
  end.

(** The float an integer operand of [/] is converted to (round to nearest
    even). *)
Definition of_int (n : Z) : float :=
  FloatOps.SF2Prim (SpecFloat.binary_normalize FloatOps.prec FloatOps.emax n 0 false).

(** Modelled from the spec: [Point] of [lib/utils/geometry.py], with float
    coordinates; equality is [==] on both coordinates. *)
Record Point : Type := mkPoint { px : float; py : float }.

Definition as_tuple (p : Point) : float * float := (px p, py p).
Definition padd (p q : Point) : Point := mkPoint (px p + px q) (py p + py q).
Definition psub (p q : Point) : Point := mkPoint (px p - px q) (py p - py q).
Definition pscale (k : float) (p : Point) : Point := mkPoint (k * px p) (k * py p).
Definition plength (p : Point) : float := sqrt (px p * px p + py p * py p).

Definition punit (p : Point) : outcome Point :=
  k <- fdiv 1 (plength p) ;; Returns (pscale k p).

Definition point_eqb (p q : Point) : bool := (px p =? px q) && (py p =? py q).

Definition tuple_eqb (p q : float * float) : bool :=
  (fst p =? fst q) && (snd p =? snd q).

(** The length of shapely's [LineString] and the distance of two points. *)
Definition distance (a b : Point) : float := plength (psub b a).

Fixpoint linestring_length (l : list Point) : float :=
  match l with
  | p :: (q :: _) as rest => distance p q + linestring_length rest
  | _ => 0
  end.

(** [interpolate] on a line of two points, as GEOS computes it: a negative
    distance is taken from the end, a distance outside the line gives the
    nearer end, and inside the point is [(b - a) * fraction + a]. *)
Definition interpolate (a b : Point) (d : float) (normalized : bool) : Point :=
  let len := distance a b in
  let d := if normalized then d * len else d in
  let d := if d <? 0 then len + d else d in
  if d <=? 0 then a
  else if d <? len then
    let fraction := d / len in
    if fraction <=? 0 then a
    else if 1 <=? fraction then b
    else mkPoint ((px b - px a) * fraction + px a) ((py b - py a) * fraction + py a)
  else b.

(** Modelled from the spec: the part of the generator of
    [lib/utils/prng.py] that [split_segment_random_phase] uses, with float
    draws. *)
Record PRNG : Type := mkPRNG {
  uniformFloat : list string -> float;
  iterUniformFloats : list string -> nat -> float
}.

Definition prng_const (u : float) : PRNG := mkPRNG (fun _ => u) (fun _ _ => u).

Section Splitters.
Variable prng : PRNG.

Fixpoint random_phase_loop (fuel : nat) (seed : string) (i : nat)
         (length length_sigma dist progress : float) (splits : list float)
  : outcome (list float) :=
  match fuel with
  | O => OutOfFuel
  | S fuel' =>
      let x := iterUniformFloats prng [seed] i in
      let progress := progress + length * (1 + length_sigma * (x - 0.5) * 2) in
      if dist <=? progress then Returns splits
      else random_phase_loop fuel' seed (S i) length length_sigma dist progress
                             (splits ++ [progress])
  end.

Definition random_phase_splits (fuel : nat) (a b : Point) (length length_sigma : float)
           (random_seed : string) : outcome (list float) :=
  let progress := length * uniformFloat prng [random_seed; "phase"%string] in
  let dist := distance a b in
  if dist <=? progress then Returns []
  else random_phase_loop fuel random_seed 0 length length_sigma dist progress [progress].

Definition split_segment_random_phase (fuel : nat) (a b : Point)
           (length length_sigma : float) (random_seed : string) : outcome (list Point) :=
  splits <- random_phase_splits fuel a b length length_sigma random_seed ;;
  Returns (map (fun x => interpolate a b x false) splits).
End Splitters.

Definition indices_where (keep : Point -> bool) (start : nat) (points : list Point)
  : list nat :=
  map fst (filter (fun ip => keep (snd ip)) (combine (seq start (length points)) points)).

Section RunningStitch.
Variable simplify : list (float * float) -> float -> list (float * float).

Definition is_important (important_points : list (float * float)) (point : Point) : bool :=
  existsb (tuple_eqb (as_tuple point)) important_points.

Definition important_point_indices (points : list Point) (tolerance : float) : list nat :=
  let important_points := simplify (map as_tuple points) tolerance in
  indices_where (is_important important_points) 0 points.

Fixpoint walk_while (fuel : nat) (segment_start segment_direction : Point)
         (segment_length actual_stitch_length dist : float) (output : list Point)
  : outcome (float * list Point) :=
  match fuel with
  | O => OutOfFuel
  | S fuel' =>
      if dist <? segment_length then
        walk_while fuel' segment_start segment_direction segment_length
                   actual_stitch_length (dist + actual_stitch_length)
                   (output ++ [padd segment_start (pscale dist segment_direction)])
      else Returns (dist, output)
  end.

Definition walk_segment (fuel : nat) (segment_start segment_end : Point)
           (actual_stitch_length dist : float) (output : list Point)
  : outcome (float * list Point) :=
  let segment := psub segment_end segment_start in
  let segment_length := plength segment in
  if dist <? segment_length then
    segment_direction <- punit segment ;;
    walk_while fuel segment_start segment_direction segment_length
               actual_stitch_length dist output
  else Returns (dist, output).

Fixpoint walk_segments (fuel : nat) (segment_start : Point) (rest : list Point)
         (actual_stitch_length dist : float) (output : list Point)
  : outcome (list Point) :=
  match rest with
  | [] => Returns output
  | segment_end :: rest' =>
      r <- walk_segment fuel segment_start segment_end actual_stitch_length dist output ;;
      walk_segments fuel segment_end rest' actual_stitch_length
                    (fst r - plength (psub segment_end segment_start)) (snd r)
  end.

Definition append_if_new (output : list Point) (section0 : Point) : list Point :=
  match rev output with
  | [] => output ++ [section0]
  | output_last :: _ =>
      if point_eqb output_last section0 then output
      else output ++ [section0]
  end.

Definition walk_section (fuel : nat) (points : list Point) (stitch_length : float)
           (bounds : nat * nat) (output : list Point) : outcome (list Point) :=
  let section := slice points (fst bounds) (snd bounds + 1) in
  match section with
  | [] => Raises IndexError
  | section0 :: section_tail =>
      let output := append_if_new output section0 in
      let section_length := linestring_length section in
      if stitch_length <? section_length then
        q <- fdiv section_length stitch_length ;;
        num_stitches <- ceil q ;;
        actual_stitch_length <- fdiv section_length (of_int num_stitches) ;;
        walk_segments fuel section0 section_tail actual_stitch_length
                      actual_stitch_length output
      else Returns output
  end.

Fixpoint walk_sections (fuel : nat) (points : list Point) (stitch_length : float)
         (bounds : list (nat * nat)) (output : list Point) : outcome (list Point) :=
  match bounds with
  | [] => Returns output
  | b :: bounds' =>
      output <- walk_section fuel points stitch_length b output ;;
      walk_sections fuel points stitch_length bounds' output
  end.

Definition running_stitch (fuel : nat) (points : list Point)
           (stitch_length tolerance : float) : outcome (list Point) :=
  if Nat.ltb (length points) 2 then Returns []
  else
    let indices := important_point_indices points tolerance in
    output <- walk_sections fuel points stitch_length (section_bounds indices) [] ;;
    points_last <- py_last points ;;
    output_last <- py_last output ;;
    if point_eqb points_last output_last then Returns output
    else Returns (output ++ [points_last]).
End RunningStitch.

(** A simplifier that keeps every vertex. *)
Definition simplify_keep_all (coords : list (float * float)) (tolerance : float)
  : list (float * float) := coords.

(** The double nearest to 0.1. *)
Definition tenth : float := 0x1.999999999999ap-4.
End Binary64.


(** A generator all of whose draws are [u]. *)
Definition prng_const (u : R) : PRNG :=
  mkPRNG (fun _ => u) (fun n _ => repeat u n) (fun _ _ => u).

Definition Zsum (l : list Z) : Z := fold_right Z.add 0%Z l.

(** Settles the comparisons of concrete reals a run goes through. *)
Ltac decide_reals :=
  repeat match goal with
    | |- context [Rge_dec ?x ?y] => destruct (Rge_dec x y); try lra
    | |- context [Rgt_dec ?x ?y] => destruct (Rgt_dec x y); try lra
    | |- context [Rlt_dec ?x ?y] => destruct (Rlt_dec x y); try lra
    | |- context [Rle_dec ?x ?y] => destruct (Rle_dec x y); try lra
    end.

(** * Properties *)

(** ** bean_stitch *)

Section BeanStitchFacts.
Context {A : Type}.
Implicit Types (l acc stitches : list A) (repeats : list Z).

Lemma last_two_snoc2 l (p s : A) : last_two (l ++ [p; s]) = [p; s].
Proof.
  unfold last_two. rewrite length_app. simpl.
  replace (length l + 2 - 2)%nat with (length l + 0)%nat by lia.
  rewrite skipn_app, Nat.add_0_r, skipn_all, Nat.sub_diag. reflexivity.
Qed.

Lemma iterate_extend (n : nat) : forall l (p s : A),
    iterate n (fun l => l ++ last_two l) (l ++ [p; s]) =
    l ++ [p; s] ++ concat (repeat [p; s] n).
Proof.
  induction n as [| n IH]; intros l p s; cbn [iterate repeat concat].
  - now rewrite app_nil_r.
  - rewrite last_two_snoc2.
    rewrite (IH (l ++ [p; s]) p s). now rewrite <- !app_assoc.
Qed.

Lemma concat_pairs_snoc (n : nat) (p s : A) :
  exists l', [p; s] ++ concat (repeat [p; s] n) = l' ++ [s].
Proof.
  induction n as [| n [l' IH]].
  - exists [p]. reflexivity.
  - exists ([p; s] ++ l'). simpl repeat. simpl concat.
    change (p :: s :: concat (repeat [p; s] n)) with ([p; s] ++ concat (repeat [p; s] n)).
    rewrite IH. now rewrite <- app_assoc.
Qed.

Lemma next_pos (m i pos : nat) :
  (0 < m)%nat -> pos = (i mod m)%nat ->
  (if Nat.eqb (S pos) m then O else S pos) = (S i mod m)%nat.
Proof.
  intros Hm Hpos.
  assert (Hlt : (pos < m)%nat) by (subst pos; apply Nat.mod_upper_bound; lia).
  pose proof (Nat.div_mod_eq i m) as Hi. rewrite <- Hpos in Hi.
  destruct (Nat.eqb_spec (S pos) m) as [He | Hne].
  - apply (Nat.mod_unique (S i) m (S (i / m)) 0); lia.
  - apply (Nat.mod_unique (S i) m (i / m) (S pos)); lia.
Qed.

(** The loop appends, for each remaining stitch, its block. *)
Lemma bean_loop_blocks (d : A) stitches repeats :
  repeats <> [] ->
  forall rest done acc0,
    stitches = done ++ rest ->
    bean_loop rest repeats (length done mod length repeats)
              (acc0 ++ [nth (pred (length done)) stitches d]) =
    Returns ((acc0 ++ [nth (pred (length done)) stitches d]) ++
             concat (map (bean_block d stitches repeats)
                         (seq (length done) (length rest)))).
Proof.
  intros Hne.
  assert (Hm : (0 < length repeats)%nat)
    by (destruct repeats; simpl; [congruence | lia]).
  induction rest as [| s rest IH]; intros done acc0 Hst.
  - cbn [bean_loop length seq map concat]. now rewrite app_nil_r.
  - cbn [bean_loop].
    assert (Hpos : (length done mod length repeats < length repeats)%nat)
      by (apply Nat.mod_upper_bound; lia).
    rewrite (nth_error_nth' repeats 0%Z Hpos).
    rewrite (next_pos (length done) Hm eq_refl).
    assert (Hs : nth (length done) stitches d = s).
    { subst stitches. rewrite app_nth2, Nat.sub_diag by lia. reflexivity. }
    unfold extend_repeats. rewrite <- app_assoc.
    change ([nth (pred (length done)) stitches d] ++ [s])
      with [nth (pred (length done)) stitches d; s].
    rewrite iterate_extend.
    destruct (concat_pairs_snoc
                (Z.to_nat (nth (length done mod length repeats) repeats 0%Z))
                (nth (pred (length done)) stitches d) s) as [l' Hl'].
    rewrite Hl', app_assoc.
    specialize (IH (done ++ [s]) (acc0 ++ l')).
    rewrite length_app in IH. simpl length in IH.
    replace (length done + 1)%nat with (S (length done)) in IH by lia.
    simpl pred in IH. rewrite Hs in IH.
    rewrite IH by (subst stitches; now rewrite <- app_assoc).
    f_equal. cbn [length seq map concat].
    unfold bean_block at 2. unfold repeat_at. rewrite Hs.
    rewrite <- (app_assoc acc0 l' [s]), <- Hl', <- !app_assoc. reflexivity.
Qed.

(** The shape of the result: the first stitch, then one block per input
    stitch. *)
Lemma bean_stitch_blocks (d : A) (s0 : A) rest repeats :
  rest <> [] -> repeats <> [] ->
  bean_stitch (s0 :: rest) repeats =
  Returns (s0 :: concat (map (bean_block d (s0 :: rest) repeats)
                             (seq 0 (length (s0 :: rest))))).
Proof.
  intros Hrest Hne. unfold bean_stitch.
  destruct rest as [| s1 rest]; [congruence |].
  change (Nat.ltb (length (s0 :: s1 :: rest)) 2) with false. cbv iota.
  pose proof (bean_loop_blocks d (stitches := s0 :: s1 :: rest) Hne
                (s0 :: s1 :: rest) [] [] eq_refl) as H.
  simpl length in H at 1 2. rewrite Nat.Div0.mod_0_l in H.
  exact H.
Qed.

Lemma concat_repeat_pair (n : nat) (a : A) :
  concat (repeat [a; a] n) = repeat a (2 * n).
Proof.
  induction n as [| n IH]; [reflexivity |].
  replace (2 * S n)%nat with (S (S (2 * n))) by lia. simpl. now rewrite IH.
Qed.

Lemma length_concat_pairs (n : nat) (p s : A) :
  length (concat (repeat [p; s] n)) = (2 * n)%nat.
Proof. induction n as [| n IH]; simpl; [reflexivity | rewrite IH; lia]. Qed.

Lemma length_blocks (d : A) stitches repeats :
  Forall (fun r => (0 <= r)%Z) repeats ->
  forall idx,
    Z.of_nat (length (concat (map (bean_block d stitches repeats) idx))) =
    Zsum (map (fun i => (1 + 2 * repeat_at repeats i)%Z) idx).
Proof.
  intros Hnn. induction idx as [| i idx IH]; [reflexivity |].
  cbn [map concat]. rewrite length_app, Nat2Z.inj_add, IH. cbn [Zsum fold_right].
  f_equal. unfold bean_block. cbn [length]. rewrite length_concat_pairs.
  assert (0 <= repeat_at repeats i)%Z.
  { unfold repeat_at. destruct (nth_in_or_default (i mod length repeats) repeats 0%Z) as [Hin | ->];
      [| lia]. rewrite Forall_forall in Hnn. now apply Hnn. }
  lia.
Qed.
End BeanStitchFacts.

(** C1 (as stated, refuted): with [repeats = [0]] the two-point sequence
    (0,0), (1,0) does not come back unchanged; its first point is doubled. *)
Lemma bean_stitch_zero_not_identity :
  bean_stitch [mkPoint 0 0; mkPoint 1 0] [0%Z] =
    Returns [mkPoint 0 0; mkPoint 0 0; mkPoint 1 0] /\
  bean_stitch [mkPoint 0 0; mkPoint 1 0] [0%Z] <>
    Returns [mkPoint 0 0; mkPoint 1 0].
Proof.
  split; [reflexivity |].
  cbv [bean_stitch bean_loop extend_repeats iterate length Nat.ltb Nat.leb
       nth_error Z.to_nat Nat.eqb app].
  intros H. inversion H.
Qed.

(** C1 (amended): for every stitch sequence with at least 2 points,
    [bean_stitch] with [repeats = [0]] returns the input preceded by one more
    copy of its first point. *)
Theorem bean_stitch_zero_doubles_first (A : Type) (stitches : list A) (s0 : A) :
  (2 <= length stitches)%nat ->
  hd_error stitches = Some s0 ->
  bean_stitch stitches [0%Z] = Returns (s0 :: stitches).
Proof.
  intros Hlen Hhd.
  destruct stitches as [| s rest]; [discriminate |].
  injection Hhd as ->.
  assert (Hrest : rest <> []) by (destruct rest; simpl in Hlen; [lia | congruence]).
  rewrite (@bean_stitch_blocks A s0 s0 rest [0%Z] Hrest) by congruence.
  do 2 f_equal.
  assert (Hgen : forall st l done, st = done ++ l ->
            concat (map (bean_block s0 st [0%Z]) (seq (length done) (length l))) = l).
  { intros st. induction l as [| a l IH]; intros done Hd; [reflexivity |].
    cbn [length seq map concat].
    specialize (IH (done ++ [a])). rewrite length_app, Nat.add_1_r in IH.
    rewrite IH by (rewrite Hd, <- app_assoc; reflexivity).
    unfold bean_block, repeat_at. cbn [length].
    rewrite Nat.mod_1_r. cbn [nth Z.to_nat repeat concat app].
    rewrite Hd, app_nth2, Nat.sub_diag by lia. reflexivity. }
  exact (Hgen (s0 :: rest) (s0 :: rest) [] eq_refl).
Qed.

Lemma bean_stitch_zero_doubles_first_witness :
  bean_stitch [1; 2; 3]%nat [0%Z] = Returns [1; 1; 2; 3]%nat.
Proof.
  apply (@bean_stitch_zero_doubles_first nat [1; 2; 3]%nat 1%nat).
  - simpl. lia.
  - reflexivity.
Defined.

(** C8: for a sequence of at least 2 stitches and a non-empty pattern of
    non-negative repeats, the output is the first stitch followed, for each
    input stitch [i], by that stitch and [r_i] copies of the last two points
    (the previous stitch and itself), [r_i = repeats[i mod |repeats|]]; so
    its length is [1 + sum_i (1 + 2 r_i)].  A sequence of fewer than 2
    stitches is returned unchanged. *)
Theorem bean_stitch_length (A : Type) (d : A) (stitches : list A) (repeats : list Z) :
  ((2 <= length stitches)%nat ->
   repeats <> [] ->
   Forall (fun r => (0 <= r)%Z) repeats ->
   exists out,
     bean_stitch stitches repeats = Returns out /\
     out = hd d stitches
             :: concat (map (bean_block d stitches repeats) (seq 0 (length stitches))) /\
     (forall i, length (bean_block d stitches repeats i) =
                (1 + 2 * Z.to_nat (repeat_at repeats i))%nat) /\
     Z.of_nat (length out) =
       (1 + Zsum (map (fun i => 1 + 2 * repeat_at repeats i) (seq 0 (length stitches))))%Z) /\
  ((length stitches < 2)%nat -> bean_stitch stitches repeats = Returns stitches).
Proof.
  split.
  - intros Hlen Hne Hnn.
    destruct stitches as [| s0 rest]; [simpl in Hlen; lia |].
    assert (Hrest : rest <> []) by (destruct rest; simpl in Hlen; [lia | congruence]).
    eexists. split; [apply (@bean_stitch_blocks A d s0 rest repeats Hrest Hne) |].
    split; [reflexivity |]. split.
    + intros i. unfold bean_block. cbn [length]. now rewrite length_concat_pairs.
    + cbn [length hd]. rewrite Nat2Z.inj_succ.
      rewrite (length_blocks d (s0 :: rest) Hnn). cbn [length]. lia.
  - intros Hlt. unfold bean_stitch.
    destruct (Nat.ltb_spec (length stitches) 2); [reflexivity | lia].
Qed.

Lemma bean_stitch_length_witness :
  exists out,
    bean_stitch [1; 2; 3]%nat [1%Z; 0%Z] = Returns out /\
    Z.of_nat (length out) = 8%Z.
Proof.
  destruct (@bean_stitch_length nat 0%nat [1; 2; 3]%nat [1%Z; 0%Z]) as [H _].
  destruct H as [out [Hout [_ [_ Hlen]]]].
  - simpl. lia.
  - discriminate.
  - repeat constructor; lia.
  - exists out. split; [exact Hout | exact Hlen].
Defined.

(** C10: for a sequence of at least 2 stitches and a non-empty pattern, the
    output starts with two copies of the first stitch, followed by
    [2 * repeats[0]] further copies of it. *)
Theorem bean_stitch_starts_doubled (A : Type) (stitches : list A) (repeats : list Z) (s0 : A) :
  (2 <= length stitches)%nat ->
  repeats <> [] ->
  hd_error stitches = Some s0 ->
  exists out rest,
    bean_stitch stitches repeats = Returns out /\
    nth_error out 0 = Some s0 /\
    nth_error out 1 = Some s0 /\
    out = s0 :: s0 :: repeat s0 (2 * Z.to_nat (nth 0 repeats 0%Z)) ++ rest.
Proof.
  intros Hlen Hne Hhd.
  destruct stitches as [| s rest]; [discriminate |].
  injection Hhd as ->.
  assert (Hrest : rest <> []) by (destruct rest; simpl in Hlen; [lia | congruence]).
  pose proof (@bean_stitch_blocks A s0 s0 rest repeats Hrest Hne) as H.
  cbn [length seq map concat] in H.
  unfold bean_block at 1 in H. unfold repeat_at at 1 in H.
  rewrite Nat.Div0.mod_0_l in H. cbn [pred nth] in H.
  rewrite concat_repeat_pair in H.
  eexists. eexists. split; [exact H |].
  repeat split; reflexivity.
Qed.

Lemma bean_stitch_starts_doubled_witness :
  exists out rest,
    bean_stitch [5; 6]%nat [2%Z] = Returns out /\
    nth_error out 0 = Some 5%nat /\
    nth_error out 1 = Some 5%nat /\
    out = (5 :: 5 :: repeat 5 (2 * Z.to_nat (nth 0 [2%Z] 0%Z)) ++ rest)%nat.
Proof.
  apply (@bean_stitch_starts_doubled nat [5; 6]%nat [2%Z] 5%nat).
  - simpl. lia.
  - discriminate.
  - reflexivity.
Defined.

(** ** Numbers and points *)

Lemma ceil_bounds (x : R) : IZR (ceil x) - 1 < x <= IZR (ceil x).
Proof.
  unfold ceil. destruct (archimed (- x)) as [H1 H2].
  rewrite minus_IZR. simpl IZR. lra.
Qed.

Lemma ceil_pos (x : R) : 0 < x -> (0 < ceil x)%Z.
Proof.
  intros Hx. destruct (ceil_bounds x) as [_ H].
  apply lt_IZR. lra.
Qed.

Lemma div_pos_neg (a b : R) : 0 < a -> b < 0 -> a / b < 0.
Proof.
  intros Ha Hb. unfold Rdiv.
  assert (/ b < 0) by (apply Rinv_lt_0_compat; exact Hb).
  nra.
Qed.

Lemma fdiv_nonzero (a b : R) : b <> 0 -> fdiv a b = Returns (a / b).
Proof. intros Hb. unfold fdiv. destruct (Req_dec_T b 0); [contradiction | reflexivity]. Qed.

Lemma fdiv_zero (a : R) : fdiv a 0 = Raises ZeroDivisionError.
Proof. unfold fdiv. destruct (Req_dec_T 0 0); [reflexivity | contradiction]. Qed.

Lemma point_eq (p q : Point) : px p = px q -> py p = py q -> p = q.
Proof. destruct p, q. simpl. intros -> ->. reflexivity. Qed.

Lemma plength_nonneg (p : Point) : 0 <= plength p.
Proof. apply sqrt_pos. Qed.

Lemma plength_zero (p : Point) : plength p = 0 -> p = mkPoint 0 0.
Proof.
  unfold plength. intros H.
  apply sqrt_eq_0 in H; [| nra].
  apply point_eq; simpl; nra.
Qed.

Lemma distance_nonneg (a b : Point) : 0 <= distance a b.
Proof. apply plength_nonneg. Qed.

Lemma distance_zero (a b : Point) : distance a b = 0 -> a = b.
Proof.
  intros H. apply plength_zero in H. unfold psub in H. inversion H.
  apply point_eq; lra.
Qed.

Lemma distance_pos (a b : Point) : a <> b -> 0 < distance a b.
Proof.
  intros Hab. destruct (distance_nonneg a b) as [H | H]; [exact H |].
  symmetry in H. apply distance_zero in H. contradiction.
Qed.

Lemma distance_horizontal (x1 x2 y : R) :
  x1 <= x2 -> distance (mkPoint x1 y) (mkPoint x2 y) = x2 - x1.
Proof.
  intros H. unfold distance, plength, psub. simpl.
  replace ((x2 - x1) * (x2 - x1) + (y - y) * (y - y)) with (Rsqr (x2 - x1))
    by (unfold Rsqr; ring).
  apply sqrt_Rsqr. lra.
Qed.

Lemma linestring_length_cons (p q : Point) (rest : list Point) :
  linestring_length (p :: q :: rest) = distance p q + linestring_length (q :: rest).
Proof. reflexivity. Qed.

Lemma linestring_length_nonneg (l : list Point) : 0 <= linestring_length l.
Proof.
  induction l as [| p l IH]; [simpl; lra |].
  destruct l as [| q l]; [simpl; lra |].
  rewrite linestring_length_cons.
  pose proof (distance_nonneg p q). lra.
Qed.

Lemma lerp_same (a : Point) (t : R) : lerp a a t = a.
Proof. apply point_eq; simpl; ring. Qed.



(** [interpolate] with [normalized=True] at a fraction between 0 and 1. *)
Lemma interpolate_normalized (a b : Point) (t : R) :
  0 < t < 1 -> interpolate a b t true = lerp a b t.
Proof.
  intros [H0 H1]. unfold interpolate.
  destruct (distance_nonneg a b) as [Hlen | Hlen].
  - destruct (Rlt_dec (t * distance a b) 0) as [H | _]; [nra |].
    destruct (Rle_dec (t * distance a b) 0) as [H | _]; [nra |].
    destruct (Rle_dec (distance a b) (t * distance a b)) as [H | _]; [nra |].
    f_equal. field. lra.
  - symmetry in Hlen. rewrite Hlen, Rmult_0_r.
    destruct (Rlt_dec 0 0) as [H | _]; [lra |].
    destruct (Rle_dec 0 0) as [_ | H]; [| lra].
    apply distance_zero in Hlen. subst b. now rewrite lerp_same.
Qed.


(** ** Sorted arrays of positions *)

Lemma strictly_increasing_tail (x : R) (l : list R) :
  strictly_increasing (x :: l) -> strictly_increasing l.
Proof. destruct l as [| y l]; simpl; tauto. Qed.

Lemma py_sorted_increasing (l : list R) :
  strictly_increasing l -> py_sorted l = l.
Proof.
  induction l as [| x l IH]; intros Hl; [reflexivity |].
  simpl py_sorted. rewrite IH by (now apply strictly_increasing_tail in Hl).
  destruct l as [| y l]; [reflexivity |].
  simpl in Hl. destruct Hl as [Hxy _]. simpl.
  destruct (Rle_dec x y) as [_ | H]; [reflexivity | lra].
Qed.

Lemma strictly_increasing_map_seq (f : nat -> R) (m : nat) :
  forall s,
    (forall k, (s <= k)%nat -> f k < f (S k)) ->
    strictly_increasing (map f (seq s m)).
Proof.
  induction m as [| m IH]; intros s Hf; [exact I |].
  specialize (IH (S s)).
  destruct m as [| m]; [exact I |].
  cbn [seq map strictly_increasing] in *. split.
  - apply Hf. lia.
  - apply IH. intros k Hk. apply Hf. lia.
Qed.



Lemma zip_with_map_seq {B C : Type} (f : R -> B -> C) (g : nat -> R) (h : R -> B)
      (us : list R) :
  forall s,
    zip_with f (map g (seq s (length us))) (map h us) =
    map (fun i => f (g i) (h (nth (i - s) us 0))) (seq s (length us)).
Proof.
  unfold zip_with. induction us as [| u us IH]; intros s; [reflexivity |].
  cbn [length seq map combine fst snd]. rewrite Nat.sub_diag. cbn [nth].
  f_equal. rewrite IH. apply map_ext_in. intros i Hi. apply in_seq in Hi.
  replace (i - s)%nat with (S (i - S s)) by lia. reflexivity.
Qed.

Lemma nth_unit_interval (us : list R) (i : nat) :
  Forall unit_interval us -> unit_interval (nth i us 0).
Proof.
  intros H. destruct (nth_in_or_default i us 0) as [Hin | ->].
  - rewrite Forall_forall in H. now apply H.
  - unfold unit_interval. lra.
Qed.

(** ** split_segment_even_n *)

Lemma even_splits_increasing (segments : Z) :
  (1 < segments)%Z -> strictly_increasing (even_splits segments).
Proof.
  intros Hs. unfold even_splits. apply strictly_increasing_map_seq.
  intros k _. rewrite S_INR.
  assert (0 < IZR segments) by (apply IZR_lt; lia).
  unfold Rdiv. apply Rmult_lt_compat_r; [now apply Rinv_0_lt_compat | lra].
Qed.

Lemma even_splits_interior (segments : Z) :
  (1 < segments)%Z -> Forall (fun t => 0 < t < 1) (even_splits segments).
Proof.
  intros Hs. unfold even_splits. rewrite Forall_forall. intros t Ht.
  apply in_map_iff in Ht. destruct Ht as [k [<- Hk]]. apply in_seq in Hk.
  assert (Hn : 0 < IZR segments) by (apply IZR_lt; lia).
  assert (Hk1 : 1 <= INR k) by (replace 1 with (INR 1) by reflexivity; apply le_INR; lia).
  assert (Hk2 : INR k + 1 <= IZR segments).
  { rewrite <- S_INR, INR_IZR_INZ. apply IZR_le. lia. }
  split.
  - apply Rdiv_lt_0_compat; lra.
  - apply Rmult_lt_reg_r with (IZR segments); [exact Hn |].
    unfold Rdiv. rewrite Rmult_assoc, Rinv_l by lra. lra.
Qed.

(** The jittered positions, as a function of the index. *)
Lemma jittered_positions (g : PRNG) (segments : Z) (jitter_sigma : R) (seed : string) :
  prng_ok g ->
  zip_with (fun s j => s + j * (jitter_sigma / IZR segments))
           (even_splits segments)
           (map (fun u => u * 2 - 1)
                (nUniformFloats g (length (even_splits segments)) [seed])) =
  map (fun i => INR i / IZR segments +
                (nth (i - 1) (nUniformFloats g (length (even_splits segments)) [seed]) 0
                 * 2 - 1) * (jitter_sigma / IZR segments))
      (seq 1 (Z.to_nat segments - 1)).
Proof.
  intros Hg. unfold even_splits at 1.
  set (us := nUniformFloats g (length (even_splits segments)) [seed]).
  assert (Hlen : length us = (Z.to_nat segments - 1)%nat).
  { unfold us. rewrite (nUniformFloats_length Hg). unfold even_splits.
    now rewrite length_map, length_seq. }
  rewrite <- Hlen. apply zip_with_map_seq.
Qed.

Lemma jittered_increasing (us : list R) (segments : Z) (jitter_sigma : R) :
  (1 < segments)%Z -> 0 <= jitter_sigma <= 1 / 2 ->
  Forall unit_interval us ->
  forall m,
  strictly_increasing
    (map (fun i => INR i / IZR segments +
                   (nth (i - 1) us 0 * 2 - 1) * (jitter_sigma / IZR segments))
         (seq 1 m)).
Proof.
  intros Hs Hsig Hus m. apply strictly_increasing_map_seq. intros k _.
  assert (Hn : 0 < IZR segments) by (apply IZR_lt; lia).
  destruct (nth_unit_interval (k - 1) Hus) as [Hu0 Hu1].
  destruct (nth_unit_interval (S k - 1) Hus) as [Hv0 Hv1].
  set (u := nth (k - 1) us 0) in *. set (v := nth (S k - 1) us 0) in *.
  rewrite S_INR.
  assert (Hgap : 0 < 1 + jitter_sigma * (v * 2 - u * 2)) by nra.
  apply Rmult_lt_reg_r with (IZR segments); [exact Hn |].
  unfold Rdiv. rewrite !Rmult_plus_distr_r.
  rewrite !(Rmult_assoc _ (/ IZR segments) (IZR segments)).
  rewrite <- !(Rmult_assoc _ _ (/ IZR segments)).
  rewrite !(Rmult_assoc _ (/ IZR segments) (IZR segments)).
  rewrite Rinv_l by lra. nra.
Qed.

Lemma jittered_interior (us : list R) (segments : Z) (jitter_sigma : R) :
  (1 < segments)%Z -> 0 <= jitter_sigma <= 1 / 2 ->
  Forall unit_interval us ->
  Forall (fun t => 0 < t < 1)
    (map (fun i => INR i / IZR segments +
                   (nth (i - 1) us 0 * 2 - 1) * (jitter_sigma / IZR segments))
         (seq 1 (Z.to_nat segments - 1))).
Proof.
  intros Hs Hsig Hus. rewrite Forall_forall. intros t Ht.
  apply in_map_iff in Ht. destruct Ht as [k [<- Hk]]. apply in_seq in Hk.
  assert (Hn : 0 < IZR segments) by (apply IZR_lt; lia).
  assert (Hk1 : 1 <= INR k) by (replace 1 with (INR 1) by reflexivity; apply le_INR; lia).
  assert (Hk2 : INR k + 1 <= IZR segments).
  { rewrite <- S_INR, INR_IZR_INZ. apply IZR_le. lia. }
  destruct (nth_unit_interval (k - 1) Hus) as [Hu0 Hu1].
  set (u := nth (k - 1) us 0) in *.
  assert (Heq : INR k / IZR segments + (u * 2 - 1) * (jitter_sigma / IZR segments) =
                (INR k + (u * 2 - 1) * jitter_sigma) / IZR segments) by (field; lra).
  rewrite Heq.
  assert (Hlo : - (1 / 2) <= (u * 2 - 1) * jitter_sigma <= 1 / 2) by nra.
  split.
  - apply Rdiv_lt_0_compat; lra.
  - apply Rmult_lt_reg_r with (IZR segments); [exact Hn |].
    unfold Rdiv. rewrite Rmult_assoc, Rinv_l by lra. lra.
Qed.

Lemma prng_const_ok (u : R) : 0 <= u < 1 -> prng_ok (prng_const u).
Proof.
  intros Hu. constructor; simpl; intros.
  - exact Hu.
  - apply repeat_length.
  - rewrite Forall_forall. intros x Hx. apply repeat_spec in Hx. now subst.
  - exact Hu.
Qed.



(** Without a seed the positions are the even ones, already in order. *)
Lemma even_n_positions_no_seed (g : PRNG) (segments : Z) (jitter_sigma : R) :
  (1 < segments)%Z ->
  even_n_positions g segments jitter_sigma None = even_splits segments.
Proof.
  intros Hs. unfold even_n_positions.
  apply py_sorted_increasing. now apply even_splits_increasing.
Qed.



(** Without a seed, the split points are the linear interpolations at the
    even fractions. *)
Lemma split_even_n_lerp (g : PRNG) (a b : Point) (n : Z) (jitter_sigma : R) :
  (1 < n)%Z ->
  split_segment_even_n g a b n jitter_sigma None =
  map (fun k => lerp a b (INR k / IZR n)) (seq 1 (Z.to_nat (n - 1))).
Proof.
  intros Hn. unfold split_segment_even_n.
  destruct (Z.leb_spec n 1) as [Hle | _]; [lia |].
  rewrite even_n_positions_no_seed by exact Hn.
  rewrite (map_ext_in _ (lerp a b)).
  - unfold even_splits. rewrite map_map.
    replace (Z.to_nat n - 1)%nat with (Z.to_nat (n - 1)) by lia. reflexivity.
  - intros t Ht. pose proof (even_splits_interior Hn) as Hint.
    rewrite Forall_forall in Hint. apply interpolate_normalized. now apply Hint.
Qed.

(** C9: without a seed, [split_segment_even_n] returns nothing for
    [segments <= 1] and otherwise the [segments - 1] points at the fractions
    [k / segments], [k = 1 .. segments - 1], of the line from [a] to [b], in
    increasing order; for [segments = 4] these are the fractions 0.25, 0.5,
    0.75. *)
Theorem split_even_n_no_seed (g : PRNG) (a b : Point) (segments : Z) (jitter_sigma : R) :
  ((segments <= 1)%Z -> split_segment_even_n g a b segments jitter_sigma None = []) /\
  ((1 < segments)%Z ->
   split_segment_even_n g a b segments jitter_sigma None =
     map (fun k => lerp a b (INR k / IZR segments)) (seq 1 (Z.to_nat (segments - 1))) /\
   Z.of_nat (length (split_segment_even_n g a b segments jitter_sigma None)) =
     (segments - 1)%Z /\
   strictly_increasing
     (map (fun k => INR k / IZR segments) (seq 1 (Z.to_nat (segments - 1))))) /\
  split_segment_even_n g a b 4 jitter_sigma None =
    [lerp a b 0.25; lerp a b 0.5; lerp a b 0.75].
Proof.
  pose proof (fun n => @split_even_n_lerp g a b n jitter_sigma) as Hmain.
  split; [| split].
  - intros Hle. unfold split_segment_even_n.
    destruct (Z.leb_spec segments 1) as [_ | Hgt]; [reflexivity | lia].
  - intros Hgt. split; [now apply Hmain |]. split.
    + rewrite Hmain by exact Hgt. rewrite length_map, length_seq. lia.
    + pose proof (even_splits_increasing Hgt) as H. unfold even_splits in H.
      replace (Z.to_nat segments - 1)%nat with (Z.to_nat (segments - 1)) in H by lia.
      exact H.
  - rewrite Hmain by lia.
    change (Z.to_nat (4 - 1)) with 3%nat. cbn [seq map].
    repeat (f_equal; try (simpl INR; lra)).
Qed.

Lemma split_even_n_no_seed_witness :
  split_segment_even_n (prng_const 0) (mkPoint 0 0) (mkPoint 10 0) 1 0 None = [] /\
  Z.of_nat (length (split_segment_even_n (prng_const 0) (mkPoint 0 0) (mkPoint 10 0) 4 0 None))
    = 3%Z.
Proof.
  destruct (split_even_n_no_seed (prng_const 0) (mkPoint 0 0) (mkPoint 10 0) 1 0) as [H1 _].
  destruct (split_even_n_no_seed (prng_const 0) (mkPoint 0 0) (mkPoint 10 0) 4 0) as [_ [H4 _]].
  split.
  - apply H1. lia.
  - destruct H4 as [_ [H _]]; [lia | exact H].
Defined.

(** ** split_segment_random_phase *)

Section RandomPhaseFacts.
Variable g : PRNG.
Variables (seed : string) (length length_sigma dist : R).



End RandomPhaseFacts.



(** ** The invariant of the three splitters *)





(** ** The walk along one section *)

Lemma steps_reach (c x : R) : 0 < c -> exists n : nat, x <= INR n * c.
Proof.
  intros Hc. destruct (Rle_dec x 0) as [Hx | Hx].
  - exists 0%nat. simpl. lra.
  - destruct (archimed (x / c)) as [Hup _].
    assert (Hxc : 0 < x / c) by (apply Rdiv_lt_0_compat; lra).
    assert (Hz : (0 <= up (x / c))%Z) by (apply le_IZR; lra).
    exists (Z.to_nat (up (x / c))).
    rewrite INR_IZR_INZ, Z2Nat.id by exact Hz.
    apply Rmult_lt_compat_r with (r := c) in Hup; [| exact Hc].
    unfold Rdiv in Hup. rewrite Rmult_assoc, Rinv_l, Rmult_1_r in Hup by lra. lra.
Qed.

(** The number of stitches that fit before [len], starting at [d] and
    stepping by [c]. *)
Lemma least_steps (c len : R) :
  0 < c ->
  forall d, exists k : nat,
    len <= d + INR k * c /\ forall i, (i < k)%nat -> d + INR i * c < len.
Proof.
  intros Hc d. destruct (steps_reach (len - d) Hc) as [n Hn].
  revert d Hn. induction n as [| n IH]; intros d Hn.
  - exists 0%nat. split; [simpl in *; lra | intros i Hi; lia].
  - destruct (Rlt_dec d len) as [Hlt | Hge].
    + destruct (IH (d + c)) as [k [Hk1 Hk2]]; [rewrite S_INR in Hn; lra |].
      exists (S k). split; [rewrite S_INR; lra |].
      intros [| i] Hi; [simpl; lra |].
      rewrite S_INR. specialize (Hk2 i). assert (i < k)%nat by lia. intuition lra.
    + exists 0%nat. split; [simpl; lra | intros i Hi; lia].
Qed.

Section WalkFacts.
Variables (segment_start segment_direction : Point).
Variables (segment_length actual_stitch_length : R).

(** The [while] loop emits one stitch per step below [segment_length]. *)
Lemma walk_while_steps (k : nat) :
  forall dist output fuel,
    segment_length <= dist + INR k * actual_stitch_length ->
    (forall i, (i < k)%nat -> dist + INR i * actual_stitch_length < segment_length) ->
    (k < fuel)%nat ->
    exists dist' stitches,
      walk_while fuel segment_start segment_direction segment_length
                 actual_stitch_length dist output = Returns (dist', output ++ stitches) /\
      dist' = dist + INR k * actual_stitch_length /\
      stitches = map (fun i => padd segment_start
                                    (pscale (dist + INR i * actual_stitch_length)
                                            segment_direction))
                     (seq 0 k).
Proof.
  induction k as [| k IH]; intros dist output fuel Hreach Hbelow Hfuel;
    (destruct fuel as [| fuel]; [lia |]); cbn [walk_while].
  - simpl in Hreach.
    destruct (Rlt_dec dist segment_length) as [H | _]; [lra |].
    exists dist, []. rewrite app_nil_r. repeat split. simpl. lra.
  - pose proof (Hbelow 0%nat ltac:(lia)) as H0. simpl in H0.
    destruct (Rlt_dec dist segment_length) as [_ | H]; [| lra].
    destruct (IH (dist + actual_stitch_length)
                 (output ++ [padd segment_start (pscale dist segment_direction)]) fuel)
      as [dist' [stitches [Hrun [Hd Hs]]]].
    + rewrite S_INR in Hreach. lra.
    + intros i Hi. specialize (Hbelow (S i) ltac:(lia)). rewrite S_INR in Hbelow. lra.
    + lia.
    + exists dist', (padd segment_start (pscale dist segment_direction) :: stitches).
      split; [| split].
      * rewrite Hrun, <- app_assoc. reflexivity.
      * rewrite S_INR. lra.
      * rewrite Hs. cbn [seq map]. f_equal.
        -- do 2 f_equal. simpl. lra.
        -- rewrite <- seq_shift, map_map. apply map_ext. intros i.
           do 2 f_equal. rewrite S_INR. lra.
Qed.

(** With a non-positive step the loop, once entered, never ends. *)
Lemma walk_while_stuck (fuel : nat) :
  actual_stitch_length <= 0 ->
  forall dist output,
    dist < segment_length ->
    walk_while fuel segment_start segment_direction segment_length
               actual_stitch_length dist output = OutOfFuel.
Proof.
  intros Hstep. induction fuel as [| fuel IH]; intros dist output Hd; [reflexivity |].
  cbn [walk_while]. destruct (Rlt_dec dist segment_length) as [_ | H]; [| lra].
  apply IH. lra.
Qed.
End WalkFacts.

Lemma punit_nonzero (v : Point) :
  plength v <> 0 -> punit v = Returns (pscale (1 / plength v) v).
Proof. intros H. unfold punit. rewrite fdiv_nonzero by exact H. reflexivity. Qed.

Lemma point_at_first_segment (p q : Point) (rest : list Point) (s : R) :
  s < distance p q ->
  point_at (p :: q :: rest) s = padd p (pscale s (pscale (1 / distance p q) (psub q p))).
Proof.
  intros Hs. cbn [point_at]. destruct (Rlt_dec s (distance p q)) as [_ | H]; [| lra].
  apply point_eq; simpl; unfold Rdiv; ring.
Qed.

Lemma point_at_later_segment (p q : Point) (rest : list Point) (s : R) :
  distance p q <= s ->
  point_at (p :: q :: rest) s = point_at (q :: rest) (s - distance p q).
Proof.
  intros Hs. cbn [point_at]. destruct (Rlt_dec s (distance p q)) as [H | _]; [lra |].
  reflexivity.
Qed.

Lemma point_at_start (path : list Point) :
  forall p, point_at (p :: path) 0 = p.
Proof.
  induction path as [| q path IH]; intros p; [reflexivity |].
  destruct (Rlt_dec 0 (distance p q)) as [Hlt | Hge].
  - rewrite point_at_first_segment by exact Hlt. apply point_eq; simpl; ring.
  - pose proof (distance_nonneg p q) as Hnn.
    assert (Hz : distance p q = 0) by lra.
    rewrite point_at_later_segment by lra. rewrite Hz, Rminus_0_r, IH.
    symmetry. now apply distance_zero.
Qed.

Lemma last_default {A : Type} (l : list A) :
  forall x d d', last (x :: l) d = last (x :: l) d'.
Proof.
  induction l as [| y l IH]; intros x d d'; [reflexivity |].
  change (last (y :: l) d = last (y :: l) d'). apply IH.
Qed.

Lemma point_at_end (path : list Point) :
  forall p, point_at (p :: path) (linestring_length (p :: path)) = last path p.
Proof.
  induction path as [| q path IH]; intros p; [reflexivity |].
  pose proof (linestring_length_nonneg (q :: path)) as Hnn.
  rewrite linestring_length_cons.
  rewrite point_at_later_segment by lra.
  replace (distance p q + linestring_length (q :: path) - distance p q)
    with (linestring_length (q :: path)) by lra.
  rewrite IH. destruct path as [| r path]; [reflexivity |].
  change (last (r :: path) q = last (r :: path) p). apply last_default.
Qed.

Lemma map_seq_offset {B : Type} (f : nat -> B) (k m : nat) :
  map f (seq k m) = map (fun j => f (k + j)%nat) (seq 0 m).
Proof.
  revert k. induction m as [| m IH]; intros k; [reflexivity |].
  cbn [seq map]. rewrite Nat.add_0_r. f_equal.
  rewrite (IH (S k)), <- seq_shift, map_map. apply map_ext. intros j.
  f_equal. lia.
Qed.

(** One segment of the section: the stitches the code emits on it are the
    points of the path at the distances [dist + i * actual_stitch_length]
    that fall on this segment. *)
Lemma walk_segment_steps (segment_start segment_end : Point) (rest : list Point)
      (actual_stitch_length dist : R) :
  0 < actual_stitch_length -> 0 <= dist ->
  exists k : nat,
    distance segment_start segment_end <= dist + INR k * actual_stitch_length /\
    (forall i, (i < k)%nat ->
               dist + INR i * actual_stitch_length < distance segment_start segment_end) /\
    forall fuel output, (k < fuel)%nat ->
      walk_segment fuel segment_start segment_end actual_stitch_length dist output =
      Returns (dist + INR k * actual_stitch_length,
               output ++ map (fun i => point_at (segment_start :: segment_end :: rest)
                                                (dist + INR i * actual_stitch_length))
                             (seq 0 k)).
Proof.
  intros Hstep Hdist.
  destruct (least_steps (distance segment_start segment_end) Hstep dist) as [k [Hk1 Hk2]].
  exists k. split; [exact Hk1 |]. split; [exact Hk2 |].
  intros fuel output Hfuel. unfold walk_segment.
  change (plength (psub segment_end segment_start)) with (distance segment_start segment_end).
  destruct (Rlt_dec dist (distance segment_start segment_end)) as [Hlt | Hge].
  - unfold distance at 1. rewrite punit_nonzero by (fold (distance segment_start segment_end); lra).
    cbn [bind]. fold (distance segment_start segment_end).
    destruct (@walk_while_steps segment_start
                (pscale (1 / distance segment_start segment_end)
                        (psub segment_end segment_start))
                (distance segment_start segment_end) actual_stitch_length
                k dist output fuel Hk1 Hk2 Hfuel) as [dist' [stitches [Hrun [-> ->]]]].
    rewrite Hrun. do 3 f_equal. apply map_ext_in. intros i Hi. apply in_seq in Hi.
    symmetry. apply point_at_first_segment. apply Hk2. lia.
  - destruct k as [| k].
    + cbn [seq map]. rewrite app_nil_r. do 2 f_equal. simpl. lra.
    + exfalso. specialize (Hk2 0%nat ltac:(lia)). simpl in Hk2. lra.
Qed.

(** The whole section: the stitches emitted are the points of the path at
    the distances [dist + i * actual_stitch_length] below its length. *)
Lemma walk_segments_steps (actual_stitch_length : R) :
  0 < actual_stitch_length ->
  forall rest segment_start dist,
    0 <= dist ->
    exists m : nat,
      linestring_length (segment_start :: rest) <= dist + INR m * actual_stitch_length /\
      (forall i, (i < m)%nat ->
                 dist + INR i * actual_stitch_length < linestring_length (segment_start :: rest)) /\
      forall fuel output, (m < fuel)%nat ->
        walk_segments fuel segment_start rest actual_stitch_length dist output =
        Returns (output ++ map (fun i => point_at (segment_start :: rest)
                                                  (dist + INR i * actual_stitch_length))
                               (seq 0 m)).
Proof.
  intros Hstep. induction rest as [| segment_end rest IH]; intros segment_start dist Hdist.
  - exists 0%nat. split; [simpl; lra |]. split; [intros i Hi; lia |].
    intros fuel output _. cbn [walk_segments seq map]. now rewrite app_nil_r.
  - destruct (walk_segment_steps segment_start segment_end rest Hstep Hdist)
      as [k [Hk1 [Hk2 Hrun]]].
    set (len := distance segment_start segment_end) in *.
    assert (Hdist' : 0 <= dist + INR k * actual_stitch_length - len) by lra.
    destruct (IH segment_end _ Hdist') as [m [Hm1 [Hm2 Hrest]]].
    pose proof (linestring_length_nonneg (segment_end :: rest)) as Hnn.
    exists (k + m)%nat. rewrite linestring_length_cons. fold len. split; [| split].
    + rewrite plus_INR. lra.
    + intros i Hi. destruct (lt_dec i k) as [Hik | Hik].
      * specialize (Hk2 i Hik). lra.
      * specialize (Hm2 (i - k)%nat ltac:(lia)).
        replace (INR i) with (INR k + INR (i - k)) by (rewrite <- plus_INR; f_equal; lia).
        lra.
    + intros fuel output Hfuel. cbn [walk_segments].
      rewrite Hrun by lia. cbn [bind fst snd].
      change (plength (psub segment_end segment_start)) with len.
      rewrite Hrest by lia. rewrite <- app_assoc. do 2 f_equal.
      rewrite seq_app, map_app. f_equal.
      rewrite (map_seq_offset _ (0 + k) m). apply map_ext_in. intros j Hj. apply in_seq in Hj.
      cbn [Nat.add].
      rewrite point_at_later_segment.
      * f_equal. fold len. rewrite plus_INR. lra.
      * fold len. rewrite plus_INR.
        assert (0 <= INR j * actual_stitch_length)
          by (apply Rmult_le_pos; [apply pos_INR | lra]).
        lra.
Qed.

Lemma ceil_unique (x : R) (z : Z) : IZR z - 1 < x <= IZR z -> ceil x = z.
Proof.
  intros [H1 H2]. destruct (ceil_bounds x) as [H3 H4].
  assert (ceil x - 1 < z)%Z by (apply lt_IZR; rewrite minus_IZR; simpl; lra).
  assert (z - 1 < ceil x)%Z by (apply lt_IZR; rewrite minus_IZR; simpl; lra).
  lia.
Qed.

(** The stitch length the code uses on a section longer than
    [stitch_length]. *)
Lemma actual_stitch_length_bounds (section_length stitch_length : R) :
  0 < stitch_length -> stitch_length < section_length ->
  (2 <= ceil (section_length / stitch_length))%Z /\
  0 < section_length / IZR (ceil (section_length / stitch_length)) <= stitch_length.
Proof.
  intros Hsl Hlong.
  destruct (ceil_bounds (section_length / stitch_length)) as [Hc1 Hc2].
  set (n := ceil (section_length / stitch_length)) in *.
  assert (Hq : 1 < section_length / stitch_length).
  { apply Rmult_lt_reg_r with stitch_length; [exact Hsl |].
    unfold Rdiv. rewrite Rmult_assoc, Rinv_l by lra. lra. }
  assert (Hn : (2 <= n)%Z).
  { assert (1 < n)%Z by (apply lt_IZR; lra). lia. }
  assert (Hnr : 2 <= IZR n) by (apply IZR_le in Hn; exact Hn).
  split; [exact Hn |]. split.
  - apply Rdiv_lt_0_compat; lra.
  - apply Rmult_le_reg_r with (IZR n); [lra |].
    unfold Rdiv. rewrite Rmult_assoc, Rinv_l, Rmult_1_r by lra.
    apply Rmult_le_compat_r with (r := stitch_length) in Hc2; [| lra].
    unfold Rdiv in Hc2. rewrite Rmult_assoc, Rinv_l, Rmult_1_r in Hc2 by lra. lra.
Qed.

(** A section longer than [stitch_length]: after the continuity step, the
    code appends the points of the section at the distances
    [k * actual_stitch_length], [k = 1 .. num_stitches - 1]. *)
Lemma walk_section_long (fuel : nat) (points : list Point) (stitch_length : R)
      (start stop : nat) (output : list Point) (section0 : Point) (section_tail : list Point) :
  slice points start (stop + 1) = section0 :: section_tail ->
  0 < stitch_length ->
  stitch_length < linestring_length (section0 :: section_tail) ->
  (Z.to_nat (ceil (linestring_length (section0 :: section_tail) / stitch_length)) <= fuel)%nat ->
  walk_section fuel points stitch_length (start, stop) output =
  Returns (append_if_new output section0 ++
           map (fun k => point_at (section0 :: section_tail)
                           (INR k * (linestring_length (section0 :: section_tail) /
                                     IZR (ceil (linestring_length (section0 :: section_tail) /
                                                stitch_length)))))
               (seq 1 (Z.to_nat (ceil (linestring_length (section0 :: section_tail) /
                                       stitch_length)) - 1))).
Proof.
  intros Hslice Hsl Hlong Hfuel.
  set (len := linestring_length (section0 :: section_tail)) in *.
  destruct (actual_stitch_length_bounds Hsl Hlong) as [Hn [Hasl0 Hasl1]].
  fold len in Hn, Hasl0, Hasl1.
  set (n := ceil (len / stitch_length)) in *.
  set (asl := len / IZR n) in *.
  assert (Hnr : 2 <= IZR n) by (apply IZR_le in Hn; exact Hn).
  unfold walk_section. cbn [fst snd]. rewrite Hslice. fold len.
  destruct (Rgt_dec len stitch_length) as [_ | H]; [| lra].
  rewrite fdiv_nonzero by lra. cbn [bind]. fold n.
  rewrite fdiv_nonzero by lra. cbn [bind]. fold asl.
  destruct (walk_segments_steps Hasl0 section_tail section0 (Rlt_le _ _ Hasl0))
    as [m [Hm1 [Hm2 Hrun]]].
  fold len in Hm1, Hm2.
  assert (Hlen : len = IZR n * asl) by (unfold asl; field; lra).
  assert (Hmn : (Z.of_nat m = n - 1)%Z).
  { assert (Hup : IZR n <= INR m + 1) by nra.
    assert (Hlo : INR m < IZR n).
    { destruct m as [| m]; [simpl; lra |].
      specialize (Hm2 m ltac:(lia)). rewrite S_INR. nra. }
    rewrite INR_IZR_INZ in Hup, Hlo.
    apply lt_IZR in Hlo.
    assert (n <= Z.of_nat m + 1)%Z by (apply le_IZR; rewrite plus_IZR; simpl; lra).
    lia. }
  rewrite Hrun by lia. do 2 f_equal.
  replace (Z.to_nat n - 1)%nat with m by lia.
  rewrite <- seq_shift, map_map. apply map_ext. intros i.
  f_equal. rewrite S_INR. lra.
Qed.

(** ** The important points and the sections between them *)

Section IndexFacts.
Variable keep : Point -> bool.
Variable d : Point.

Lemma indices_where_cons (start : nat) (p : Point) (points : list Point) :
  indices_where keep start (p :: points) =
  if keep p then start :: indices_where keep (S start) points
  else indices_where keep (S start) points.
Proof.
  unfold indices_where. cbn [length seq combine filter snd].
  destruct (keep p); reflexivity.
Qed.

Lemma indices_where_In (points : list Point) :
  forall start i,
    In i (indices_where keep start points) <->
    (start <= i < start + length points)%nat /\ keep (nth (i - start) points d) = true.
Proof.
  induction points as [| p points IH]; intros start i.
  - cbn. split; [tauto | lia].
  - rewrite indices_where_cons. cbn [length].
    assert (Hrest : In i (indices_where keep (S start) points) <->
                    (S start <= i < start + S (length points))%nat /\
                    keep (nth (i - start) (p :: points) d) = true).
    { rewrite IH. split; intros [Hr Hk]; (split; [lia |]).
      - replace (i - start)%nat with (S (i - S start)) by lia. exact Hk.
      - replace (i - start)%nat with (S (i - S start)) in Hk by lia. exact Hk. }
    destruct (keep p) eqn:Hp.
    + cbn [In]. rewrite Hrest. split.
      * intros [<- | [Hr Hk]]; [| split; [lia | exact Hk]].
        split; [lia |]. now rewrite Nat.sub_diag.
      * intros [Hr Hk]. destruct (Nat.eq_dec start i) as [-> | Hne]; [now left |].
        right. split; [lia | exact Hk].
    + rewrite Hrest. split.
      * intros [Hr Hk]. split; [lia | exact Hk].
      * intros [Hr Hk]. split; [| exact Hk].
        destruct (Nat.eq_dec start i) as [-> | Hne]; [| lia].
        rewrite Nat.sub_diag in Hk. cbn in Hk. congruence.
Qed.

Lemma indices_where_sorted (points : list Point) :
  forall start, StronglySorted lt (indices_where keep start points).
Proof.
  induction points as [| p points IH]; intros start.
  - constructor.
  - rewrite indices_where_cons. destruct (keep p); [| apply IH].
    constructor; [apply IH |].
    rewrite Forall_forall. intros i Hi. apply indices_where_In in Hi. lia.
Qed.

Lemma indices_where_last (front : list Point) (p : Point) :
  keep p = true ->
  forall start,
    indices_where keep start (front ++ [p]) =
    indices_where keep start front ++ [(start + length front)%nat].
Proof.
  intros Hp. induction front as [| q front IH]; intros start.
  - cbn [app length]. rewrite indices_where_cons, Hp, Nat.add_0_r. reflexivity.
  - cbn [app length]. rewrite !indices_where_cons, IH.
    replace (S start + length front)%nat with (start + S (length front))%nat by lia.
    destruct (keep q); reflexivity.
Qed.
End IndexFacts.

Lemma is_important_true (important_points : list (R * R)) (p : Point) :
  In (as_tuple p) important_points -> is_important important_points p = true.
Proof.
  intros H. unfold is_important.
  destruct (in_dec tuple_eq_dec (as_tuple p) important_points); [reflexivity | contradiction].
Qed.

Lemma section_bounds_cons (x y : nat) (l : list nat) :
  section_bounds (x :: y :: l) = (x, y) :: section_bounds (y :: l).
Proof. reflexivity. Qed.

Lemma section_bounds_sorted (l : list nat) :
  StronglySorted lt l ->
  forall s e, In (s, e) (section_bounds l) -> (s < e)%nat /\ In e l.
Proof.
  induction l as [| x l IH]; intros Hl s e Hin; [contradiction |].
  destruct l as [| y l]; [contradiction |].
  rewrite section_bounds_cons in Hin.
  inversion Hl as [| ? ? Hl' Hx]; subst.
  destruct Hin as [Heq | Hin].
  - injection Heq as <- <-. inversion Hx; subst. split; [assumption | right; now left].
  - destruct (IH Hl' s e Hin) as [Hse He]. split; [exact Hse | now right].
Qed.

Lemma section_bounds_starts (l : list nat) :
  map fst (section_bounds l) = removelast l.
Proof.
  induction l as [| x l IH]; [reflexivity |].
  destruct l as [| y l]; [reflexivity |].
  rewrite section_bounds_cons. cbn [map fst]. rewrite IH. reflexivity.
Qed.

(** ** Slices and last elements *)

Lemma slice_head {A : Type} (d : A) (l : list A) (start stop : nat) :
  (start < length l)%nat -> (start <= stop)%nat ->
  exists tail, slice l start (stop + 1) = nth start l d :: tail.
Proof.
  intros Hstart Hstop. unfold slice.
  destruct (nth_split l d Hstart) as [l1 [l2 [Hl Hlen]]].
  remember (nth start l d) as x eqn:Hx. clear Hx. subst l.
  rewrite skipn_app, Hlen, Nat.sub_diag.
  rewrite skipn_all2 by lia. cbn [skipn app].
  replace (stop + 1 - start)%nat with (S (stop - start)) by lia.
  cbn [firstn]. eexists. reflexivity.
Qed.

Lemma py_last_snoc {A : Type} (l : list A) (x : A) : py_last (l ++ [x]) = Returns x.
Proof. unfold py_last. now rewrite rev_unit. Qed.

Lemma py_last_nonempty {A : Type} (d : A) (l : list A) :
  l <> [] -> py_last l = Returns (last l d).
Proof.
  intros Hl. destruct (exists_last Hl) as [front [x ->]].
  rewrite py_last_snoc, last_last. reflexivity.
Qed.

Lemma append_if_new_spec (output : list Point) (p : Point) :
  exists e, append_if_new output p = output ++ e /\
            In p (output ++ e) /\
            (output = [] -> e = [p]).
Proof.
  unfold append_if_new. destruct (rev output) as [| x r] eqn:Hrev.
  - exists [p]. split; [reflexivity |]. split; [apply in_or_app; right; now left | auto].
  - assert (Hout : output = rev r ++ [x]).
    { rewrite <- (rev_involutive output), Hrev. reflexivity. }
    destruct (Point_eq_dec x p) as [-> | Hne].
    + exists []. rewrite app_nil_r. split; [reflexivity |]. split.
      * rewrite Hout. apply in_or_app. right. now left.
      * intros H. rewrite H in Hout. destruct (rev r); discriminate.
    + exists [p]. split; [reflexivity |]. split; [apply in_or_app; right; now left | auto].
Qed.

(** ** The whole walk *)

Section WalkSections.
Variable points : list Point.
Variable stitch_length : R.
Variable d : Point.
Hypothesis stitch_length_pos : 0 < stitch_length.

(** With enough fuel a section returns: the continuity step, then its
    stitches. *)
Lemma walk_section_returns (start stop : nat) :
  (start < length points)%nat -> (start <= stop)%nat ->
  exists m, forall fuel, (m <= fuel)%nat -> forall output,
    exists mid,
      walk_section fuel points stitch_length (start, stop) output =
      Returns (append_if_new output (nth start points d) ++ mid).
Proof.
  intros Hstart Hstop.
  destruct (slice_head d points Hstart Hstop) as [tail Hslice].
  destruct (Rgt_dec (linestring_length (nth start points d :: tail)) stitch_length)
    as [Hlong | Hshort].
  - eexists. intros fuel Hfuel output. eexists.
    apply walk_section_long; [exact Hslice | exact stitch_length_pos | exact Hlong | exact Hfuel].
  - exists 0%nat. intros fuel _ output. exists [].
    unfold walk_section. cbn [fst snd]. rewrite Hslice.
    destruct (Rgt_dec _ stitch_length) as [H | _]; [contradiction |].
    now rewrite app_nil_r.
Qed.

(** With enough fuel the loop over the sections returns; the output only
    grows, it contains the first point of every section, and when it starts
    empty it starts with the first point of the first section. *)
Lemma walk_sections_returns (bounds : list (nat * nat)) :
  Forall (fun b => (fst b < length points)%nat /\ (fst b <= snd b)%nat) bounds ->
  exists m, forall fuel, (m <= fuel)%nat -> forall output,
    exists ext,
      walk_sections fuel points stitch_length bounds output = Returns (output ++ ext) /\
      (forall b, In b bounds -> In (nth (fst b) points d) (output ++ ext)) /\
      (output = [] -> forall b0 rest, bounds = b0 :: rest ->
                      hd_error ext = Some (nth (fst b0) points d)).
Proof.
  induction bounds as [| [start stop] bounds IH]; intros Hb.
  - exists 0%nat. intros fuel _ output. exists []. rewrite app_nil_r.
    split; [reflexivity |]. split; [intros b [] | intros _ b0 rest H; discriminate].
  - inversion Hb as [| ? ? [Hstart Hstop] Hb']; subst. cbn [fst snd] in Hstart, Hstop.
    destruct (walk_section_returns Hstart Hstop) as [m1 Hsec].
    destruct (IH Hb') as [m2 Hrest].
    exists (Nat.max m1 m2). intros fuel Hfuel output.
    destruct (Hsec fuel ltac:(lia) output) as [mid Hrun1].
    destruct (append_if_new_spec output (nth start points d)) as [e [He [Hin Hempty]]].
    rewrite He in Hrun1.
    destruct (Hrest fuel ltac:(lia) ((output ++ e) ++ mid)) as [ext [Hrun2 [Hall _]]].
    exists (e ++ mid ++ ext). cbn [walk_sections]. rewrite Hrun1. cbn [bind].
    rewrite Hrun2. split; [now rewrite <- !app_assoc |]. split.
    + intros b [<- | Hbin].
      * cbn [fst]. rewrite !app_assoc. apply in_or_app. left. apply in_or_app. now left.
      * specialize (Hall b Hbin). now rewrite <- !app_assoc in Hall.
    + intros Hout b0 rest Heq. injection Heq as <- _. cbn [fst].
      rewrite (Hempty Hout). reflexivity.
Qed.
End WalkSections.

Section RunningStitchFacts.
Variable simplify : list (R * R) -> R -> list (R * R).
Hypothesis keeps_ends : simplify_keeps_ends simplify.
Variable points : list Point.
Variable tolerance : R.
Variable d : Point.
Hypothesis two_points : (2 <= length points)%nat.

Lemma indices_start :
  exists i1 rest, important_point_indices simplify points tolerance = 0%nat :: i1 :: rest.
Proof.
  unfold important_point_indices.
  set (keep := is_important (simplify (map as_tuple points) tolerance)).
  assert (Hfirst : forall p rest, points = p :: rest -> keep p = true).
  { intros p rest Hp. apply is_important_true, keeps_ends. left. now rewrite Hp. }
  assert (Hlast : forall front p, points = front ++ [p] -> keep p = true).
  { intros front p Hp. apply is_important_true, keeps_ends. right.
    rewrite Hp, map_app, rev_app_distr. reflexivity. }
  destruct points as [| p0 rest] eqn:Hpts; [simpl in two_points; lia |].
  assert (Hrest : rest <> []) by (destruct rest; simpl in two_points; [lia | congruence]).
  destruct (exists_last Hrest) as [front [pl Hfront]].
  rewrite indices_where_cons, (Hfirst p0 rest eq_refl).
  rewrite Hfront.
  rewrite (@indices_where_last keep front pl
             (Hlast (p0 :: front) pl ltac:(now rewrite Hfront))).
  destruct (indices_where keep 1 front) as [| i1 t]; eexists; eexists; reflexivity.
Qed.

Lemma indices_last :
  last (important_point_indices simplify points tolerance) 0%nat = (length points - 1)%nat.
Proof.
  unfold important_point_indices.
  set (keep := is_important (simplify (map as_tuple points) tolerance)).
  assert (Hne : points <> []) by (destruct points; simpl in two_points; [lia | congruence]).
  destruct (exists_last Hne) as [front [pl Hfront]].
  assert (Hlast : keep pl = true).
  { apply is_important_true, keeps_ends. right.
    rewrite Hfront, map_app, rev_app_distr. reflexivity. }
  rewrite Hfront, (@indices_where_last keep front pl Hlast), last_last, length_app.
  simpl. lia.
Qed.

Lemma indices_bounds :
  Forall (fun b => (fst b < length points)%nat /\ (fst b <= snd b)%nat)
         (section_bounds (important_point_indices simplify points tolerance)).
Proof.
  rewrite Forall_forall. intros [s e] Hin. cbn [fst snd].
  destruct (section_bounds_sorted (indices_where_sorted _ d points 0) s e Hin) as [Hse He].
  apply (indices_where_In _ d) in He. lia.
Qed.

(** With a positive stitch length and enough fuel, [running_stitch]
    returns; its output starts at the first point of the path, ends at its
    last point and contains every point of the path whose coordinates the
    simplifier kept. *)
Lemma running_stitch_returns (stitch_length : R) :
  0 < stitch_length ->
  exists fuel0, forall fuel, (fuel0 <= fuel)%nat ->
    exists out,
      running_stitch simplify fuel points stitch_length tolerance = Returns out /\
      hd_error out = hd_error points /\
      hd_error (rev out) = hd_error (rev points) /\
      forall p, In p points ->
                In (as_tuple p) (simplify (map as_tuple points) tolerance) ->
                In p out.
Proof.
  intros Hsl.
  destruct (@walk_sections_returns
              points stitch_length d Hsl
              (section_bounds (important_point_indices simplify points tolerance))
              indices_bounds) as [m Hwalk].
  exists m. intros fuel Hfuel.
  destruct (Hwalk fuel Hfuel []) as [ext [Hrun [Hstarts Hhead]]].
  cbn [app] in Hrun, Hstarts.
  destruct indices_start as [i1 [rest Hidx]].
  specialize (Hhead eq_refl (0%nat, i1) (section_bounds (i1 :: rest))).
  rewrite Hidx, section_bounds_cons in Hhead.
  specialize (Hhead eq_refl). cbn [fst] in Hhead.
  assert (Hne : points <> []) by (destruct points; simpl in two_points; [lia | congruence]).
  destruct (exists_last Hne) as [front [pl Hfront]].
  assert (Hp0 : hd_error points = Some (nth 0 points d)).
  { destruct points; [congruence | reflexivity]. }
  assert (Hext : ext <> []) by (destruct ext; [discriminate | congruence]).
  (* the output after the final top-up *)
  set (out := if Point_eq_dec pl (last ext d) then ext else ext ++ [pl]).
  assert (Hout : running_stitch simplify fuel points stitch_length tolerance = Returns out).
  { unfold running_stitch.
    destruct (Nat.ltb_spec (length points) 2) as [H | _]; [lia |].
    rewrite Hrun. cbn [bind].
    rewrite Hfront at 1. rewrite py_last_snoc. cbn [bind].
    rewrite (py_last_nonempty d Hext). cbn [bind].
    unfold out. destruct (Point_eq_dec pl (last ext d)); reflexivity. }
  assert (Hprefix : exists t, out = ext ++ t).
  { unfold out. destruct (Point_eq_dec pl (last ext d));
      [exists []; now rewrite app_nil_r | exists [pl]; reflexivity]. }
  assert (Hend : hd_error (rev out) = Some pl).
  { unfold out. destruct (Point_eq_dec pl (last ext d)) as [Heq | Hneq].
    - destruct (exists_last Hext) as [f [x Hx]]. rewrite Hx in Heq |- *.
      rewrite last_last in Heq. subst x. now rewrite rev_unit.
    - now rewrite rev_unit. }
  exists out. split; [exact Hout |]. split; [| split].
  - destruct Hprefix as [t ->]. rewrite Hp0.
    destruct ext as [| x ext']; [congruence |]. exact Hhead.
  - rewrite Hend, Hfront, rev_unit. reflexivity.
  - intros p Hp Himp.
    destruct (In_nth points p d Hp) as [i [Hi Hnth]].
    assert (Hin : In i (important_point_indices simplify points tolerance)).
    { unfold important_point_indices. apply (indices_where_In _ d).
      split; [lia |]. rewrite Nat.sub_0_r, Hnth. now apply is_important_true. }
    assert (Hidxne : important_point_indices simplify points tolerance <> [])
      by (rewrite Hidx; discriminate).
    rewrite (app_removelast_last 0%nat Hidxne) in Hin.
    apply in_app_or in Hin. destruct Hin as [Hin | [Hin | []]].
    + rewrite <- section_bounds_starts in Hin. apply in_map_iff in Hin.
      destruct Hin as [b [Hb Hbin]]. specialize (Hstarts b Hbin).
      rewrite Hb, Hnth in Hstarts.
      destruct Hprefix as [t ->]. apply in_or_app. now left.
    + rewrite indices_last in Hin. subst i.
      assert (Hpl : p = pl).
      { rewrite <- Hnth, Hfront, length_app, app_nth2 by (simpl; lia).
        replace (length front + length [pl] - 1 - length front)%nat with 0%nat
          by (simpl; lia).
        reflexivity. }
      subst p. apply in_rev. destruct (rev out); [discriminate |].
      injection Hend as ->. now left.
Qed.
End RunningStitchFacts.

Lemma simplify_keep_all_keeps_ends : simplify_keeps_ends simplify_keep_all.
Proof.
  intros coords tolerance c [H | H]; unfold simplify_keep_all.
  - destruct coords; [discriminate |]. injection H as ->. now left.
  - apply in_rev. destruct (rev coords); [discriminate |]. injection H as ->. now left.
Qed.

Lemma simplify_ends_only_keeps_ends : simplify_keeps_ends simplify_ends_only.
Proof.
  intros coords tolerance c [H | H]; unfold simplify_ends_only.
  - destruct coords; [discriminate |]. injection H as ->. now left.
  - destruct coords as [| c0 coords]; [discriminate |].
    right. left.
    destruct (@exists_last _ (c0 :: coords) ltac:(discriminate)) as [front [x Hx]].
    rewrite Hx in H |- *. rewrite rev_unit in H. injection H as ->.
    now rewrite last_last.
Qed.

(** C3: for a path of at least 2 points and a positive stitch length (and a
    simplifier that keeps the two ends of the path), [running_stitch] returns
    a sequence whose first point is the first point of the path and whose last
    point is its last point; for a path of fewer than 2 points it returns the
    empty sequence. *)
Theorem running_stitch_endpoints (simplify : list (R * R) -> R -> list (R * R))
        (points : list Point) (stitch_length tolerance : R) :
  (simplify_keeps_ends simplify ->
   (2 <= length points)%nat -> 0 < stitch_length -> 0 <= tolerance ->
   exists fuel0, forall fuel, (fuel0 <= fuel)%nat ->
     exists out,
       running_stitch simplify fuel points stitch_length tolerance = Returns out /\
       hd_error out = hd_error points /\
       hd_error (rev out) = hd_error (rev points)) /\
  ((length points < 2)%nat ->
   forall fuel, running_stitch simplify fuel points stitch_length tolerance = Returns []).
Proof.
  split.
  - intros Hends Hlen Hsl _.
    destruct (@running_stitch_returns simplify Hends points tolerance (mkPoint 0 0) Hlen
                stitch_length Hsl) as [fuel0 H].
    exists fuel0. intros fuel Hfuel. destruct (H fuel Hfuel) as [out [Hrun [Hhd [Hlast _]]]].
    exists out. auto.
  - intros Hlen fuel. unfold running_stitch.
    destruct (Nat.ltb_spec (length points) 2) as [_ | H]; [reflexivity | lia].
Qed.

Lemma running_stitch_endpoints_witness :
  exists fuel0, forall fuel, (fuel0 <= fuel)%nat ->
    exists out,
      running_stitch simplify_ends_only fuel
                     [mkPoint 0 0; mkPoint 5 0; mkPoint 10 0] 3 (1 / 10) = Returns out /\
      hd_error out = Some (mkPoint 0 0) /\
      hd_error (rev out) = Some (mkPoint 10 0).
Proof.
  apply (proj1 (running_stitch_endpoints simplify_ends_only
                  [mkPoint 0 0; mkPoint 5 0; mkPoint 10 0] 3 (1 / 10))).
  - exact simplify_ends_only_keeps_ends.
  - simpl. lia.
  - lra.
  - lra.
Defined.

(** C7: every point of the path whose coordinates the simplifier kept (an
    important point) is, unchanged, an element of the output of
    [running_stitch] (for a path of at least 2 points, a positive stitch
    length and a simplifier that keeps the two ends). *)
Theorem important_points_stitched (simplify : list (R * R) -> R -> list (R * R))
        (points : list Point) (stitch_length tolerance : R) :
  simplify_keeps_ends simplify ->
  (2 <= length points)%nat -> 0 < stitch_length ->
  exists fuel0, forall fuel, (fuel0 <= fuel)%nat ->
    exists out,
      running_stitch simplify fuel points stitch_length tolerance = Returns out /\
      forall p, In p points ->
                In (as_tuple p) (simplify (map as_tuple points) tolerance) ->
                In p out.
Proof.
  intros Hends Hlen Hsl.
  destruct (@running_stitch_returns simplify Hends points tolerance (mkPoint 0 0) Hlen
              stitch_length Hsl) as [fuel0 H].
  exists fuel0. intros fuel Hfuel. destruct (H fuel Hfuel) as [out [Hrun [_ [_ Himp]]]].
  exists out. auto.
Qed.

Lemma important_points_stitched_witness :
  exists fuel0, forall fuel, (fuel0 <= fuel)%nat ->
    exists out,
      running_stitch simplify_keep_all fuel
                     [mkPoint 0 0; mkPoint 5 0; mkPoint 5 5] 2 0 = Returns out /\
      forall p, In p [mkPoint 0 0; mkPoint 5 0; mkPoint 5 5] ->
                In (as_tuple p)
                   (simplify_keep_all (map as_tuple [mkPoint 0 0; mkPoint 5 0; mkPoint 5 5]) 0) ->
                In p out.
Proof.
  apply (@important_points_stitched simplify_keep_all
           [mkPoint 0 0; mkPoint 5 0; mkPoint 5 5] 2 0).
  - exact simplify_keep_all_keeps_ends.
  - simpl. lia.
  - lra.
Defined.

(** ** A stitch length that is not positive *)

Section NonPositiveStitchLength.
Variable simplify : list (R * R) -> R -> list (R * R).
Hypothesis keeps_ends : simplify_keeps_ends simplify.
Variables (p0 p1 : Point) (rest : list Point).
Variable tolerance : R.
Hypothesis first_segment : p0 <> p1.

(** The first section starts with the first two (p0 :: p1 :: rest) of the path. *)
Lemma first_section :
  exists i1 t tail,
    important_point_indices simplify (p0 :: p1 :: rest) tolerance = 0%nat :: i1 :: t /\
    slice (p0 :: p1 :: rest) 0 (i1 + 1) = p0 :: p1 :: tail.
Proof.
  assert (Hlen : (2 <= length (p0 :: p1 :: rest))%nat) by (simpl; lia).
  destruct (@indices_start simplify keeps_ends (p0 :: p1 :: rest) tolerance Hlen) as [i1 [t Hidx]].
  exists i1, t.
  pose proof (indices_where_sorted
                (is_important (simplify (map as_tuple (p0 :: p1 :: rest)) tolerance))
                p0 (p0 :: p1 :: rest) 0) as Hs.
  fold (important_point_indices simplify (p0 :: p1 :: rest) tolerance) in Hs. rewrite Hidx in Hs.
  inversion Hs as [| ? ? _ Hlt]; subst. inversion Hlt as [| ? ? Hi1 _]; subst.
  exists (firstn (i1 - 1) rest). split; [exact Hidx |].
  unfold slice. cbn [skipn].
  replace (i1 + 1 - 0)%nat with (S (S (i1 - 1))) by lia. reflexivity.
Qed.

(** The walk over the first section with a stitch length that is not
    positive. *)
Lemma walk_first_section_fails (fuel i1 : nat) (tail : list Point) (stitch_length : R) :
  slice (p0 :: p1 :: rest) 0 (i1 + 1) = p0 :: p1 :: tail ->
  (stitch_length = 0 ->
   walk_section fuel (p0 :: p1 :: rest) stitch_length (0%nat, i1) [] = Raises ZeroDivisionError) /\
  (stitch_length < 0 ->
   walk_section fuel (p0 :: p1 :: rest) stitch_length (0%nat, i1) [] = Raises ZeroDivisionError \/
   walk_section fuel (p0 :: p1 :: rest) stitch_length (0%nat, i1) [] = OutOfFuel).
Proof.
  intros Hslice.
  pose proof (distance_pos first_segment) as Hseg.
  pose proof (linestring_length_nonneg (p1 :: tail)) as Hnn.
  assert (Hlen : 0 < linestring_length (p0 :: p1 :: tail))
    by (rewrite linestring_length_cons; lra).
  set (len := linestring_length (p0 :: p1 :: tail)) in *.
  split; intros Hsl; unfold walk_section; cbn [fst snd]; rewrite Hslice; fold len;
    (destruct (Rgt_dec len stitch_length) as [_ | H]; [| lra]).
  - rewrite Hsl, fdiv_zero. reflexivity.
  - rewrite fdiv_nonzero by lra. cbn [bind].
    set (n := ceil (len / stitch_length)).
    destruct (Req_dec_T (IZR n) 0) as [Hz | Hnz].
    + left. rewrite Hz, fdiv_zero. reflexivity.
    + right. rewrite fdiv_nonzero by exact Hnz. cbn [bind walk_segments].
      assert (Hq : len / stitch_length < 0).
      { apply div_pos_neg; lra. }
      destruct (ceil_bounds (len / stitch_length)) as [Hc _]. fold n in Hc.
      assert (Hn : IZR n < 0).
      { assert (n < 1)%Z by (apply lt_IZR; lra).
        assert (n <> 0)%Z by (intros ->; now apply Hnz).
        apply IZR_lt. lia. }
      assert (Hasl : len / IZR n < 0).
      { apply div_pos_neg; lra. }
      unfold walk_segment.
      change (plength (psub p1 p0)) with (distance p0 p1).
      destruct (Rlt_dec (len / IZR n) (distance p0 p1)) as [_ | H]; [| lra].
      unfold distance at 1. rewrite punit_nonzero by (fold (distance p0 p1); lra).
      cbn [bind]. rewrite walk_while_stuck by (fold (distance p0 p1); lra).
      reflexivity.
Qed.

(** With at least two (p0 :: p1 :: rest), the first two of them distinct, a stitch
    length of 0 ends in the division by zero and a negative one in a division
    by zero or in a loop that does not end: no stitches are returned. *)
Lemma running_stitch_nonpositive (fuel : nat) (stitch_length : R) :
  (stitch_length = 0 ->
   running_stitch simplify fuel (p0 :: p1 :: rest) stitch_length tolerance = Raises ZeroDivisionError) /\
  (stitch_length < 0 ->
   running_stitch simplify fuel (p0 :: p1 :: rest) stitch_length tolerance = Raises ZeroDivisionError \/
   running_stitch simplify fuel (p0 :: p1 :: rest) stitch_length tolerance = OutOfFuel).
Proof.
  destruct first_section as [i1 [t [tail [Hidx Hslice]]]].
  destruct (@walk_first_section_fails fuel i1 tail stitch_length Hslice) as [Hzero Hneg].
  assert (Hrun : running_stitch simplify fuel (p0 :: p1 :: rest) stitch_length tolerance =
                 (output <- (output <- walk_section fuel (p0 :: p1 :: rest) stitch_length (0%nat, i1) [] ;;
                             walk_sections fuel (p0 :: p1 :: rest) stitch_length
                                           (section_bounds (i1 :: t)) output) ;;
                  points_last <- py_last (p0 :: p1 :: rest) ;;
                  output_last <- py_last output ;;
                  if Point_eq_dec points_last output_last then Returns output
                  else Returns (output ++ [points_last]))).
  { unfold running_stitch. change (Nat.ltb (length (p0 :: p1 :: rest)) 2) with false. cbv iota.
    rewrite Hidx, section_bounds_cons. reflexivity. }
  split; intros Hsl.
  - rewrite Hrun, (Hzero Hsl). reflexivity.
  - rewrite Hrun. destruct (Hneg Hsl) as [-> | ->]; [left | right]; reflexivity.
Qed.
End NonPositiveStitchLength.

(** On a path of two points the important indices are 0 and 1. *)
Lemma two_point_indices (simplify : list (R * R) -> R -> list (R * R))
      (p q : Point) (tolerance : R) :
  simplify_keeps_ends simplify ->
  important_point_indices simplify [p; q] tolerance = [0%nat; 1%nat].
Proof.
  intros Hends. unfold important_point_indices.
  rewrite !indices_where_cons.
  rewrite !is_important_true; [reflexivity | |]; apply Hends; [right | left]; reflexivity.
Qed.

(** C2 (as stated, refuted): nothing checks [stitch_length].  With a
    stitch length of 0 the two-point path (0,0), (0,0) is stitched and
    returned; with a stitch length of -1 the walk over (0,0), (1,0) is entered
    and never ends. *)
Lemma running_stitch_accepts_nonpositive_length :
  running_stitch simplify_keep_all 0 [mkPoint 0 0; mkPoint 0 0] 0 0 =
    Returns [mkPoint 0 0] /\
  (forall fuel,
      running_stitch simplify_keep_all fuel [mkPoint 0 0; mkPoint 1 0] (-1) 0 = OutOfFuel).
Proof.
  split.
  - unfold running_stitch. change (Nat.ltb (length [mkPoint 0 0; mkPoint 0 0]) 2) with false.
    cbv iota. rewrite (two_point_indices _ _ _ simplify_keep_all_keeps_ends).
    cbn [section_bounds removelast tl combine walk_sections bind].
    unfold walk_section. cbn [fst snd slice Nat.add Nat.sub skipn firstn].
    unfold append_if_new. cbn [rev app linestring_length].
    rewrite distance_horizontal by lra.
    destruct (Rgt_dec (0 - 0 + 0) 0) as [H | _]; [lra |].
    cbn [bind py_last rev app].
    destruct (Point_eq_dec (mkPoint 0 0) (mkPoint 0 0)) as [_ | H]; [reflexivity | congruence].
  - intros fuel.
    assert (Hne : mkPoint 0 0 <> mkPoint 1 0) by (intros H; inversion H; lra).
    destruct (@running_stitch_nonpositive simplify_keep_all simplify_keep_all_keeps_ends
                (mkPoint 0 0) (mkPoint 1 0) [] 0 Hne fuel (-1)) as [_ Hneg].
    destruct (Hneg ltac:(lra)) as [Hraise | Hloop]; [| exact Hloop].
    (* the division num_stitches = ceil(1 / -1) = -1 does not fail *)
    exfalso. revert Hraise. unfold running_stitch.
    change (Nat.ltb (length [mkPoint 0 0; mkPoint 1 0]) 2) with false. cbv iota.
    rewrite (two_point_indices _ _ _ simplify_keep_all_keeps_ends).
    cbn [section_bounds removelast tl combine walk_sections bind].
    unfold walk_section. cbn [fst snd slice Nat.add Nat.sub skipn firstn].
    unfold append_if_new. cbn [rev app linestring_length].
    rewrite distance_horizontal by lra.
    destruct (Rgt_dec (1 - 0 + 0) (-1)) as [_ | H]; [| lra].
    rewrite fdiv_nonzero by lra. cbn [bind].
    replace (ceil ((1 - 0 + 0) / -1)) with (-1)%Z
      by (symmetry; apply ceil_unique; simpl; lra).
    rewrite fdiv_nonzero by lra. cbn [bind walk_segments].
    unfold walk_segment.
    change (plength (psub (mkPoint 1 0) (mkPoint 0 0)))
      with (distance (mkPoint 0 0) (mkPoint 1 0)).
    rewrite distance_horizontal by lra.
    destruct (Rlt_dec ((1 - 0 + 0) / -1) (1 - 0)) as [_ | H]; [| lra].
    unfold punit.
    change (plength (psub (mkPoint 1 0) (mkPoint 0 0)))
      with (distance (mkPoint 0 0) (mkPoint 1 0)).
    rewrite distance_horizontal by lra.
    rewrite fdiv_nonzero by lra. cbn [bind].
    rewrite walk_while_stuck by lra. cbn [bind]. discriminate.
Qed.

(** C2 (amended): [running_stitch] does not check [stitch_length].  With
    fewer than 2 points it returns the empty sequence whatever the stitch
    length; on a path whose first two points differ, a stitch length of 0 ends
    in the [ZeroDivisionError] of [section_length / stitch_length], and a
    negative one in a [ZeroDivisionError] or in a loop that never ends. *)
Theorem running_stitch_unchecked_stitch_length
        (simplify : list (R * R) -> R -> list (R * R)) (fuel : nat)
        (points : list Point) (stitch_length tolerance : R) :
  ((length points < 2)%nat ->
   running_stitch simplify fuel points stitch_length tolerance = Returns []) /\
  (simplify_keeps_ends simplify ->
   (exists p0 p1 rest, points = p0 :: p1 :: rest /\ p0 <> p1) ->
   (stitch_length = 0 ->
    running_stitch simplify fuel points stitch_length tolerance = Raises ZeroDivisionError) /\
   (stitch_length < 0 ->
    running_stitch simplify fuel points stitch_length tolerance = Raises ZeroDivisionError \/
    running_stitch simplify fuel points stitch_length tolerance = OutOfFuel)).
Proof.
  split.
  - intros Hlen. unfold running_stitch.
    destruct (Nat.ltb_spec (length points) 2) as [_ | H]; [reflexivity | lia].
  - intros Hends [p0 [p1 [rest [-> Hne]]]].
    now apply running_stitch_nonpositive.
Qed.

Lemma running_stitch_unchecked_stitch_length_witness :
  running_stitch simplify_keep_all 5 [mkPoint 0 0; mkPoint 1 0; mkPoint 1 1] 0 0 =
  Raises ZeroDivisionError.
Proof.
  apply (proj2 (running_stitch_unchecked_stitch_length simplify_keep_all 5
                  [mkPoint 0 0; mkPoint 1 0; mkPoint 1 1] 0 0)).
  - exact simplify_keep_all_keeps_ends.
  - exists (mkPoint 0 0), (mkPoint 1 0), [mkPoint 1 1]. split; [reflexivity |].
    intros H. inversion H. lra.
  - reflexivity.
Defined.

(** ** Runs on concrete paths *)

Lemma point_at_horizontal (x0 x1 y s : R) :
  0 <= s < x1 - x0 ->
  point_at [mkPoint x0 y; mkPoint x1 y] s = mkPoint (x0 + s) y.
Proof.
  intros [Hs0 Hs1]. cbn [point_at]. rewrite distance_horizontal by lra.
  destruct (Rlt_dec s (x1 - x0)) as [_ | H]; [| lra].
  apply point_eq; simpl; field; lra.
Qed.

(** The docstring's simple bean stitch: one repeat triples every stitch. *)
Example bean_stitch_one_repeat :
  bean_stitch [1; 2; 3]%nat [1%Z] = Returns [1; 1; 1; 1; 2; 1; 2; 3; 2; 3]%nat.
Proof. reflexivity. Qed.

Example bean_stitch_pattern :
  bean_stitch [1; 2; 3; 4]%nat [0%Z; 1%Z; 3%Z] =
  Returns [1; 1; 2; 1; 2; 3; 2; 3; 2; 3; 2; 3; 4]%nat.
Proof. reflexivity. Qed.

Example bean_stitch_no_repeats : bean_stitch [1; 2]%nat [] = Raises IndexError.
Proof. reflexivity. Qed.

(** [split_segment_even_dist((0,0), (10,0), 3)]: four segments, split at
    x = 2.5, 5 and 7.5. *)
Example split_even_dist_ten_by_three (g : PRNG) :
  split_segment_even_dist g (mkPoint 0 0) (mkPoint 10 0) 3 0 None =
  Returns [mkPoint 2.5 0; mkPoint 5 0; mkPoint 7.5 0].
Proof.
  unfold split_segment_even_dist. rewrite distance_horizontal by lra.
  rewrite fdiv_nonzero by lra. cbn [bind].
  replace (ceil ((10 - 0) / 3)) with 4%Z by (symmetry; apply ceil_unique; simpl; lra).
  rewrite split_even_n_lerp by lia.
  change (Z.to_nat (4 - 1)) with 3%nat. cbn [seq map].
  do 2 f_equal; [| f_equal; [| f_equal]]; apply point_eq; simpl; lra.
Qed.

(** The same path walked by [running_stitch] with a stitch length of 3:
    four stitches of length 2.5. *)
Example running_stitch_ten_by_three :
  running_stitch simplify_keep_all 4 [mkPoint 0 0; mkPoint 10 0] 3 0 =
  Returns [mkPoint 0 0; mkPoint 2.5 0; mkPoint 5 0; mkPoint 7.5 0; mkPoint 10 0].
Proof.
  assert (Hlen : linestring_length [mkPoint 0 0; mkPoint 10 0] = 10).
  { cbn [linestring_length]. rewrite distance_horizontal by lra. lra. }
  assert (Hceil : ceil (10 / 3) = 4%Z) by (apply ceil_unique; simpl; lra).
  unfold running_stitch.
  change (Nat.ltb (length [mkPoint 0 0; mkPoint 10 0]) 2) with false. cbv iota.
  rewrite (two_point_indices _ _ _ simplify_keep_all_keeps_ends).
  cbn [section_bounds removelast tl combine walk_sections].
  rewrite (@walk_section_long 4 [mkPoint 0 0; mkPoint 10 0] 3 0 1 []
             (mkPoint 0 0) [mkPoint 10 0] eq_refl);
    [| lra | rewrite Hlen; lra | rewrite Hlen, Hceil; simpl; lia].
  rewrite Hlen, Hceil. change (Z.to_nat 4 - 1)%nat with 3%nat.
  cbn [seq map bind append_if_new rev app].
  rewrite !point_at_horizontal by (simpl; lra).
  cbn [py_last rev app bind].
  destruct (Point_eq_dec (mkPoint 10 0) (mkPoint (0 + INR 3 * (10 / 4)) 0)) as [Heq | _].
  - exfalso. inversion Heq as [Hx]. simpl in Hx. lra.
  - replace (0 + INR 1 * (10 / 4)) with 2.5 by (simpl; lra).
    replace (0 + INR 2 * (10 / 4)) with 5 by (simpl; lra).
    replace (0 + INR 3 * (10 / 4)) with 7.5 by (simpl; lra).
    reflexivity.
Qed.

(** * Further properties of the module *)

(** ** bean_stitch: the pattern *)

Section BeanPatternFacts.
Context {A : Type}.

Lemma extend_repeats_max (r : Z) (l : list A) :
  extend_repeats (Z.max 0 r) l = extend_repeats r l.
Proof. unfold extend_repeats. f_equal. lia. Qed.

Lemma bean_loop_clamped (repeats : list Z) (rest : list A) :
  forall pos acc,
    bean_loop rest (map (Z.max 0) repeats) pos acc = bean_loop rest repeats pos acc.
Proof.
  induction rest as [| s rest IH]; intros pos acc; [reflexivity |].
  cbn [bean_loop]. rewrite nth_error_map, length_map.
  destruct (nth_error repeats pos) as [r |]; [| reflexivity].
  cbn [option_map]. rewrite extend_repeats_max. apply IH.
Qed.

(** Two patterns that give every input stitch the same repeat count give
    the same bean stitch. *)
Lemma bean_stitch_same_counts (stitches : list A) (repeats repeats' : list Z) :
  repeats <> [] -> repeats' <> [] ->
  (forall i, (i < length stitches)%nat -> repeat_at repeats i = repeat_at repeats' i) ->
  bean_stitch stitches repeats = bean_stitch stitches repeats'.
Proof.
  intros Hne Hne' Hsame.
  destruct stitches as [| s0 rest]; [reflexivity |].
  destruct rest as [| s1 rest]; [reflexivity |].
  rewrite (@bean_stitch_blocks A s0 s0 (s1 :: rest) repeats) by congruence.
  rewrite (@bean_stitch_blocks A s0 s0 (s1 :: rest) repeats') by congruence.
  do 3 f_equal. apply map_ext_in. intros i Hi. apply in_seq in Hi.
  unfold bean_block. rewrite Hsame by lia. reflexivity.
Qed.

Lemma repeat_at_doubled (repeats : list Z) (i : nat) :
  repeat_at (repeats ++ repeats) i = repeat_at repeats i.
Proof.
  unfold repeat_at. rewrite length_app.
  destruct repeats as [| r0 repeats']; [destruct (i mod _)%nat; reflexivity |].
  set (repeats := r0 :: repeats'). set (m := length repeats).
  assert (Hm : (0 < m)%nat) by (unfold m, repeats; simpl; lia).
  replace (m + m)%nat with (m * 2)%nat by lia.
  rewrite Nat.Div0.mod_mul_r.
  pose proof (Nat.mod_upper_bound i m ltac:(lia)) as Hlt.
  pose proof (Nat.mod_upper_bound (i / m) 2 ltac:(lia)) as Hq.
  destruct ((i / m) mod 2)%nat as [| [| q]]; [| | lia].
  - rewrite Nat.mul_0_r, Nat.add_0_r. apply app_nth1. exact Hlt.
  - rewrite Nat.mul_1_r, app_nth2 by (fold m; lia). fold m. f_equal. lia.
Qed.
End BeanPatternFacts.

(** X1: on a run of at least 2 stitches an empty pattern is an
    [IndexError]: the first [repeats[repeat_list_pos]] has nothing to read. *)
Theorem bean_stitch_empty_pattern (A : Type) (stitches : list A) :
  (2 <= length stitches)%nat -> bean_stitch stitches [] = Raises IndexError.
Proof.
  intros Hlen. destruct stitches as [| s0 [| s1 rest]]; simpl in Hlen; try lia.
  reflexivity.
Qed.

Lemma bean_stitch_empty_pattern_witness :
  bean_stitch [mkPoint 0 0; mkPoint 1 0] [] = Raises IndexError.
Proof.
  apply (@bean_stitch_empty_pattern Point [mkPoint 0 0; mkPoint 1 0]). simpl. lia.
Defined.

(** X2: a negative repeat count acts as 0 ([range] of a negative number is
    empty): clamping the pattern at 0 does not change the result. *)
Theorem bean_stitch_negative_repeats (A : Type) (stitches : list A) (repeats : list Z) :
  bean_stitch stitches (map (Z.max 0) repeats) = bean_stitch stitches repeats.
Proof.
  unfold bean_stitch. destruct (Nat.ltb (length stitches) 2); [reflexivity |].
  destruct stitches as [| s0 rest]; [reflexivity |]. apply bean_loop_clamped.
Qed.

(** X3: the pattern is cyclic: writing it out twice changes nothing. *)
Theorem bean_stitch_pattern_doubled (A : Type) (stitches : list A) (repeats : list Z) :
  bean_stitch stitches (repeats ++ repeats) = bean_stitch stitches repeats.
Proof.
  destruct repeats as [| r0 repeats']; [reflexivity |].
  apply bean_stitch_same_counts; try discriminate.
  intros i _. apply repeat_at_doubled.
Qed.

(** X4: of a pattern at least as long as the run of stitches only the
    first [len(stitches)] entries are used. *)
Theorem bean_stitch_pattern_truncated (A : Type) (stitches : list A) (repeats : list Z) :
  (length stitches <= length repeats)%nat ->
  bean_stitch stitches (firstn (length stitches) repeats) = bean_stitch stitches repeats.
Proof.
  intros Hlen.
  destruct stitches as [| s0 rest]; [reflexivity |].
  destruct repeats as [| r0 repeats']; [simpl in Hlen; lia |].
  apply bean_stitch_same_counts; try discriminate.
  intros i Hi. unfold repeat_at.
  rewrite length_firstn, Nat.min_l by exact Hlen.
  rewrite !Nat.mod_small by lia.
  rewrite nth_firstn. destruct (Nat.ltb_spec i (length (s0 :: rest))); [reflexivity | lia].
Qed.

Lemma bean_stitch_pattern_truncated_witness :
  bean_stitch [1; 2]%nat (firstn (length [1; 2]%nat) [1%Z; 0%Z; 5%Z]) =
  bean_stitch [1; 2]%nat [1%Z; 0%Z; 5%Z].
Proof.
  apply (@bean_stitch_pattern_truncated nat [1; 2]%nat [1%Z; 0%Z; 5%Z]). simpl. lia.
Defined.

(** ** bean_stitch: the points of the result *)

Section BeanPointsFacts.
Context {A : Type}.

Lemma in_concat_pairs (n : nat) (a b p : A) :
  In p (concat (repeat [a; b] n)) -> p = a \/ p = b.
Proof.
  induction n as [| n IH]; [intros [] |].
  cbn [repeat concat app In]. intros [H | [H | H]]; auto.
Qed.

Lemma bean_block_ends (d : A) (stitches : list A) (repeats : list Z) (i : nat) :
  exists l, bean_block d stitches repeats i = l ++ [nth i stitches d].
Proof.
  unfold bean_block. destruct (Z.to_nat (repeat_at repeats i)) as [| k].
  - exists []. reflexivity.
  - destruct (@concat_pairs_snoc A k (nth (pred i) stitches d) (nth i stitches d))
      as [l' Hl'].
    exists (nth i stitches d :: l'). cbn [repeat concat]. rewrite Hl'. reflexivity.
Qed.

Lemma bean_block_incl (d : A) (stitches : list A) (repeats : list Z) (i : nat) (p : A) :
  (i < length stitches)%nat ->
  In p (bean_block d stitches repeats i) -> In p stitches.
Proof.
  intros Hi [<- | Hin]; [now apply nth_In |].
  apply in_concat_pairs in Hin. destruct Hin as [-> | ->]; apply nth_In; lia.
Qed.
End BeanPointsFacts.

(** X5: a bean stitch has the points of its input and no other: the
    repeats only revisit stitches that are there. *)
Theorem bean_stitch_same_points (A : Type) (stitches : list A) (repeats : list Z) :
  (2 <= length stitches)%nat -> repeats <> [] ->
  exists out,
    bean_stitch stitches repeats = Returns out /\
    forall p, In p out <-> In p stitches.
Proof.
  intros Hlen Hne.
  destruct stitches as [| s0 rest]; [simpl in Hlen; lia |].
  assert (Hrest : rest <> []) by (destruct rest; simpl in Hlen; [lia | congruence]).
  eexists. split; [apply (@bean_stitch_blocks A s0 s0 rest repeats Hrest Hne) |].
  intros p. split.
  - intros [<- | Hin]; [now left |].
    apply in_concat in Hin. destruct Hin as [blk [Hblk Hp]].
    apply in_map_iff in Hblk. destruct Hblk as [i [<- Hi]]. apply in_seq in Hi.
    apply (@bean_block_incl A s0 (s0 :: rest) repeats i p); [lia | exact Hp].
  - intros Hin. right.
    destruct (In_nth (s0 :: rest) p s0 Hin) as [i [Hi Hnth]].
    apply in_concat. exists (bean_block s0 (s0 :: rest) repeats i). split.
    + apply in_map. apply in_seq. lia.
    + left. exact Hnth.
Qed.

Lemma bean_stitch_same_points_witness :
  exists out,
    bean_stitch [1; 2; 3]%nat [2%Z; 0%Z] = Returns out /\
    forall p, In p out <-> In p [1; 2; 3]%nat.
Proof.
  apply (@bean_stitch_same_points nat [1; 2; 3]%nat [2%Z; 0%Z]).
  - simpl. lia.
  - discriminate.
Defined.

(** X6: a bean stitch ends on the last stitch of its input, whatever the
    pattern repeats. *)
Theorem bean_stitch_ends_on_last (A : Type) (stitches : list A) (repeats : list Z) :
  (2 <= length stitches)%nat -> repeats <> [] ->
  exists out,
    bean_stitch stitches repeats = Returns out /\
    hd_error (rev out) = hd_error (rev stitches).
Proof.
  intros Hlen Hne.
  destruct stitches as [| s0 rest]; [simpl in Hlen; lia |].
  assert (Hrest : rest <> []) by (destruct rest; simpl in Hlen; [lia | congruence]).
  eexists. split; [apply (@bean_stitch_blocks A s0 s0 rest repeats Hrest Hne) |].
  destruct (exists_last Hrest) as [front [x Hx]].
  set (stitches := s0 :: rest).
  assert (Hn : length stitches = S (length (s0 :: front))).
  { unfold stitches. rewrite Hx. cbn [length]. rewrite length_app. simpl. lia. }
  assert (Hlast : nth (length (s0 :: front)) stitches s0 = x).
  { unfold stitches. rewrite Hx.
    change (s0 :: front ++ [x]) with ((s0 :: front) ++ [x]).
    rewrite app_nth2, Nat.sub_diag by lia. reflexivity. }
  rewrite Hn, seq_S, map_app, concat_app. cbn [Nat.add map concat].
  destruct (@bean_block_ends A s0 stitches repeats (length (s0 :: front))) as [l Hl].
  rewrite Hl, Hlast, app_nil_r.
  rewrite app_comm_cons, app_assoc, rev_unit.
  unfold stitches. rewrite Hx.
  change (s0 :: front ++ [x]) with ((s0 :: front) ++ [x]).
  rewrite rev_unit. reflexivity.
Qed.

Lemma bean_stitch_ends_on_last_witness :
  exists out,
    bean_stitch [1; 2; 3]%nat [2%Z; 1%Z] = Returns out /\
    hd_error (rev out) = hd_error (rev [1; 2; 3]%nat).
Proof.
  apply (@bean_stitch_ends_on_last nat [1; 2; 3]%nat [2%Z; 1%Z]).
  - simpl. lia.
  - discriminate.
Defined.

(** ** The splitters: how many points *)

Lemma insert_sorted_length (x : R) (l : list R) :
  length (insert_sorted x l) = S (length l).
Proof.
  induction l as [| y l IH]; [reflexivity |].
  cbn [insert_sorted]. destruct (Rle_dec x y); cbn [length]; [reflexivity | now rewrite IH].
Qed.

Lemma py_sorted_length (l : list R) : length (py_sorted l) = length l.
Proof.
  induction l as [| x l IH]; [reflexivity |].
  cbn [py_sorted]. rewrite insert_sorted_length, IH. reflexivity.
Qed.

Lemma zip_with_length {A B C : Type} (f : A -> B -> C) (l : list A) (m : list B) :
  length (zip_with f l m) = Nat.min (length l) (length m).
Proof. unfold zip_with. now rewrite length_map, length_combine. Qed.

Lemma even_splits_length (segments : Z) :
  length (even_splits segments) = (Z.to_nat segments - 1)%nat.
Proof. unfold even_splits. now rewrite length_map, length_seq. Qed.

(** X7: with a seed but a [jitter_sigma] of 0 the split points are those
    of the call without a seed. *)
Theorem split_even_n_zero_jitter (g : PRNG) (a b : Point) (segments : Z)
        (jitter_sigma : R) (seed : string) :
  prng_ok g ->
  split_segment_even_n g a b segments 0 (Some seed) =
  split_segment_even_n g a b segments jitter_sigma None.
Proof.
  intros Hg. unfold split_segment_even_n.
  destruct (segments <=? 1)%Z; [reflexivity |].
  f_equal. unfold even_n_positions. f_equal.
  rewrite (jittered_positions segments 0 seed Hg). unfold even_splits.
  apply map_ext. intros i. unfold Rdiv. ring.
Qed.

Lemma split_even_n_zero_jitter_witness :
  split_segment_even_n (prng_const (1 / 4)) (mkPoint 0 0) (mkPoint 10 0) 4 0
                       (Some "seed"%string) =
  split_segment_even_n (prng_const (1 / 4)) (mkPoint 0 0) (mkPoint 10 0) 4 (1 / 3) None.
Proof.
  apply (@split_even_n_zero_jitter (prng_const (1 / 4)) (mkPoint 0 0) (mkPoint 10 0) 4
           (1 / 3) "seed"%string).
  apply prng_const_ok. lra.
Defined.

(** X8: [split_segment_even_n] returns [segments - 1] points (none for
    [segments <= 1]) whatever the jitter and the seed are: the jitter moves
    points and the sort reorders them, neither drops one. *)
Theorem split_even_n_count (g : PRNG) (a b : Point) (segments : Z)
        (jitter_sigma : R) (random_seed : option string) :
  prng_ok g ->
  length (split_segment_even_n g a b segments jitter_sigma random_seed) =
  Z.to_nat (segments - 1).
Proof.
  intros Hg. unfold split_segment_even_n.
  destruct (Z.leb_spec segments 1) as [Hle | Hgt]; [simpl; lia |].
  rewrite length_map. unfold even_n_positions. rewrite py_sorted_length.
  destruct random_seed as [seed |].
  - rewrite zip_with_length, length_map, (nUniformFloats_length Hg), Nat.min_id.
    rewrite even_splits_length. lia.
  - rewrite even_splits_length. lia.
Qed.

Lemma split_even_n_count_witness :
  length (split_segment_even_n (prng_const (3 / 4)) (mkPoint 0 0) (mkPoint 1 0) 5 4
                               (Some "seed"%string)) = Z.to_nat (5 - 1).
Proof.
  apply (@split_even_n_count (prng_const (3 / 4)) (mkPoint 0 0) (mkPoint 1 0) 5 4
           (Some "seed"%string)).
  apply prng_const_ok. lra.
Defined.

(** ** split_segment_even_dist *)

(** X12: the edges of [split_segment_even_dist]: a [max_length] of 0 is a
    [ZeroDivisionError]; a negative [max_length], or a segment no longer than
    a positive [max_length], gives no split point at all. *)
Theorem split_even_dist_edges (g : PRNG) (a b : Point) (max_length jitter_sigma : R)
        (random_seed : option string) :
  (max_length = 0 ->
   split_segment_even_dist g a b max_length jitter_sigma random_seed =
     Raises ZeroDivisionError) /\
  (max_length < 0 \/ (0 < max_length /\ distance a b <= max_length) ->
   split_segment_even_dist g a b max_length jitter_sigma random_seed = Returns []).
Proof.
  split.
  - intros ->. unfold split_segment_even_dist. rewrite fdiv_zero. reflexivity.
  - intros Hcase. pose proof (distance_nonneg a b) as Hdist.
    assert (Hq : distance a b / max_length <= 1).
    { destruct Hcase as [Hneg | [Hpos Hshort]].
      - destruct Hdist as [Hd | Hd].
        + pose proof (div_pos_neg Hd Hneg). lra.
        + rewrite <- Hd. unfold Rdiv. rewrite Rmult_0_l. lra.
      - apply Rmult_le_reg_r with max_length; [exact Hpos |].
        unfold Rdiv. rewrite Rmult_assoc, Rinv_l by lra. lra. }
    unfold split_segment_even_dist.
    rewrite fdiv_nonzero by (destruct Hcase as [H | [H _]]; lra). cbn [bind].
    unfold split_segment_even_n.
    destruct (Z.leb_spec (ceil (distance a b / max_length)) 1) as [_ | Hgt]; [reflexivity |].
    exfalso. destruct (ceil_bounds (distance a b / max_length)) as [Hc _].
    apply IZR_lt in Hgt. assert (Hz : (2 <= ceil (distance a b / max_length))%Z) by (apply lt_IZR in Hgt; lia).
    apply IZR_le in Hz. lra.
Qed.

Lemma split_even_dist_edges_witness :
  split_segment_even_dist (prng_const 0) (mkPoint 0 0) (mkPoint 2 0) 0 (1 / 4) None =
    Raises ZeroDivisionError /\
  split_segment_even_dist (prng_const 0) (mkPoint 0 0) (mkPoint 2 0) 5 (1 / 4) None =
    Returns [].
Proof.
  split.
  - apply (proj1 (split_even_dist_edges (prng_const 0) (mkPoint 0 0) (mkPoint 2 0) 0
                    (1 / 4) None)). reflexivity.
  - apply (proj2 (split_even_dist_edges (prng_const 0) (mkPoint 0 0) (mkPoint 2 0) 5
                    (1 / 4) None)).
    right. split; [lra |]. rewrite distance_horizontal by lra. lra.
Defined.

(** ** split_segment_random_phase with a length that is not positive *)

Section RandomPhaseSpacing.
Variable g : PRNG.
Variables (seed : string) (length length_sigma dist : R).

(** When no step is positive, the loop never reaches the end of the
    segment. *)
Lemma random_phase_loop_stuck (fuel : nat) :
  (forall i, length * (1 + length_sigma * (iterUniformFloats g [seed] i - 0.5) * 2) <= 0) ->
  forall i progress splits,
    progress < dist ->
    random_phase_loop g fuel seed i length length_sigma dist progress splits = OutOfFuel.
Proof.
  intros Hstep.
  induction fuel as [| fuel IH]; intros i progress splits Hp; [reflexivity |].
  cbn [random_phase_loop]. specialize (Hstep i).
  destruct (Rge_dec _ dist) as [Hge | Hlt]; [lra |].
  apply IH. lra.
Qed.
End RandomPhaseSpacing.

(** X14: with a [length] that is not positive (and
    [0 <= length_sigma <= 1]) the loop of [split_segment_random_phase] never
    ends on a segment with [a <> b]: no step moves towards the end. *)
Theorem random_phase_never_returns (g : PRNG) (a b : Point) (length length_sigma : R)
        (seed : string) :
  prng_ok g -> a <> b -> length <= 0 -> 0 <= length_sigma <= 1 ->
  forall fuel,
    split_segment_random_phase g fuel a b length length_sigma seed = OutOfFuel.
Proof.
  intros Hg Hab Hl Hs fuel. pose proof (distance_pos Hab) as Hdist.
  destruct (uniformFloat_range Hg [seed; "phase"%string]) as [Hu0 Hu1].
  unfold split_segment_random_phase, random_phase_splits.
  destruct (Rge_dec _ (distance a b)) as [Hge | Hlt]; [nra |].
  rewrite random_phase_loop_stuck; [reflexivity | | nra].
  intros i. destruct (iterUniformFloats_range Hg [seed] i) as [Hx0 Hx1].
  assert (0 <= 1 + length_sigma * (iterUniformFloats g [seed] i - 0.5) * 2) by nra.
  nra.
Qed.

Lemma random_phase_never_returns_witness :
  split_segment_random_phase (prng_const (1 / 2)) 1000 (mkPoint 0 0) (mkPoint 1 0) 0 0
                             "seed" = OutOfFuel.
Proof.
  apply (@random_phase_never_returns (prng_const (1 / 2)) (mkPoint 0 0) (mkPoint 1 0) 0 0
           "seed").
  - apply prng_const_ok. lra.
  - intros H. inversion H. lra.
  - lra.
  - lra.
Defined.

(** ** running_stitch without important points *)

(** X16: when fewer than two points of the path have coordinates the
    simplifier returned, no section is walked and the final
    [output[-1]] is an [IndexError]. *)
Theorem running_stitch_too_few_important
        (simplify : list (R * R) -> R -> list (R * R)) (fuel : nat)
        (points : list Point) (stitch_length tolerance : R) :
  (2 <= length points)%nat ->
  (length (important_point_indices simplify points tolerance) < 2)%nat ->
  running_stitch simplify fuel points stitch_length tolerance = Raises IndexError.
Proof.
  intros Hlen Hfew. unfold running_stitch.
  destruct (Nat.ltb_spec (length points) 2) as [H | _]; [lia |].
  assert (Hb : section_bounds (important_point_indices simplify points tolerance) = []).
  { destruct (important_point_indices simplify points tolerance) as [| i [| j l]];
      [reflexivity | reflexivity | simpl in Hfew; lia]. }
  rewrite Hb. cbn [walk_sections bind].
  assert (Hne : points <> []) by (destruct points; simpl in Hlen; [lia | congruence]).
  rewrite (py_last_nonempty (mkPoint 0 0) Hne). reflexivity.
Qed.

Lemma running_stitch_too_few_important_witness :
  running_stitch (fun _ _ => []) 3 [mkPoint 0 0; mkPoint 1 0] 1 0 = Raises IndexError.
Proof.
  apply (@running_stitch_too_few_important (fun _ _ => []) 3%nat
           [mkPoint 0 0; mkPoint 1 0] 1 0).
  - simpl. lia.
  - simpl. lia.
Defined.

(** ** running_stitch on a path no longer than one stitch *)










(** ** The size of the jitter *)

(** X18: with a seed and [0 <= jitter_sigma <= 1/2] (and more than one
    segment), the sort changes nothing and the [k]-th point returned by
    [split_segment_even_n] is the point at a fraction of the segment that
    differs from [k / segments] by at most [jitter_sigma / segments]. *)
Theorem split_even_n_jitter_bound (g : PRNG) (a b : Point) (segments : Z)
        (jitter_sigma : R) (seed : string) :
  prng_ok g -> (1 < segments)%Z -> 0 <= jitter_sigma <= 1 / 2 ->
  exists ts,
    split_segment_even_n g a b segments jitter_sigma (Some seed) = map (lerp a b) ts /\
    length ts = Z.to_nat (segments - 1) /\
    forall k, (1 <= k <= Z.to_nat (segments - 1))%nat ->
              Rabs (nth (k - 1) ts 0 - INR k / IZR segments) <= jitter_sigma / IZR segments.
Proof.
  intros Hg Hs Hsig.
  pose proof (nUniformFloats_range Hg (length (even_splits segments)) [seed]) as Hus.
  set (us := nUniformFloats g (length (even_splits segments)) [seed]) in *.
  set (J := fun i => INR i / IZR segments +
                     (nth (i - 1) us 0 * 2 - 1) * (jitter_sigma / IZR segments)).
  assert (Hpos : even_n_positions g segments jitter_sigma (Some seed) =
                 map J (seq 1 (Z.to_nat segments - 1))).
  { unfold even_n_positions. rewrite (jittered_positions segments jitter_sigma seed Hg).
    fold us. fold J. apply py_sorted_increasing.
    apply (jittered_increasing Hs Hsig Hus). }
  assert (Hn : 0 < IZR segments) by (apply IZR_lt; lia).
  exists (map J (seq 1 (Z.to_nat segments - 1))). split; [| split].
  - unfold split_segment_even_n.
    destruct (Z.leb_spec segments 1) as [Hle | _]; [lia |].
    rewrite Hpos. apply map_ext_in. intros t Ht.
    pose proof (jittered_interior Hs Hsig Hus) as Hint. fold J in Hint.
    rewrite Forall_forall in Hint. apply interpolate_normalized. now apply Hint.
  - rewrite length_map, length_seq. lia.
  - intros k Hk.
    rewrite (nth_indep _ 0 (J 0%nat)) by (rewrite length_map, length_seq; lia).
    rewrite map_nth, seq_nth by lia.
    replace (1 + (k - 1))%nat with k by lia. unfold J.
    destruct (nth_unit_interval (k - 1) Hus) as [Hu0 Hu1].
    set (u := nth (k - 1) us 0) in *.
    replace (INR k / IZR segments + (u * 2 - 1) * (jitter_sigma / IZR segments) -
             INR k / IZR segments)
      with ((u * 2 - 1) * jitter_sigma / IZR segments) by (field; lra).
    apply Rabs_le. split.
    + apply Rmult_le_reg_r with (IZR segments); [exact Hn |].
      unfold Rdiv. rewrite <- Ropp_mult_distr_l.
      rewrite !Rmult_assoc, Rinv_l, !Rmult_1_r by lra. nra.
    + apply Rmult_le_reg_r with (IZR segments); [exact Hn |].
      unfold Rdiv. rewrite !Rmult_assoc, Rinv_l, !Rmult_1_r by lra. nra.
Qed.

Lemma split_even_n_jitter_bound_witness :
  exists ts,
    split_segment_even_n (prng_const (3 / 4)) (mkPoint 0 0) (mkPoint 10 0) 4 (1 / 2)
                         (Some "seed"%string) = map (lerp (mkPoint 0 0) (mkPoint 10 0)) ts /\
    length ts = Z.to_nat (4 - 1) /\
    forall k, (1 <= k <= Z.to_nat (4 - 1))%nat ->
              Rabs (nth (k - 1) ts 0 - INR k / IZR 4) <= (1 / 2) / IZR 4.
Proof.
  apply (@split_even_n_jitter_bound (prng_const (3 / 4)) (mkPoint 0 0) (mkPoint 10 0) 4
           (1 / 2) "seed"%string).
  - apply prng_const_ok. lra.
  - lia.
  - lra.
Defined.

(** * Runs in binary64 *)

Module Binary64Facts.
Import PrimFloat.
Import Binary64.
Local Open Scope float_scope.

Section RandomPhaseOffsets.
Variable g : PRNG.
Variables (seed : string) (length length_sigma dist : float).

(** Every offset the loop keeps has failed the test [progress >= distance]. *)
Lemma random_phase_loop_keeps_tested (fuel : nat) :
  forall i progress splits out,
    Forall (fun x => (dist <=? x) = false) splits ->
    random_phase_loop g fuel seed i length length_sigma dist progress splits = Returns out ->
    Forall (fun x => (dist <=? x) = false) out.
Proof.
  induction fuel as [| fuel IH]; intros i progress splits out Hsplits Hrun;
    [discriminate |].
  cbn [random_phase_loop] in Hrun.
  destruct (dist <=? progress + length * (1 + length_sigma *
                       (iterUniformFloats g [seed] i - 0.5) * 2)) eqn:Htest.
  - injection Hrun as <-. exact Hsplits.
  - eapply IH; [| exact Hrun].
    apply Forall_app. split; [exact Hsplits |]. constructor; [exact Htest | constructor].
Qed.
End RandomPhaseOffsets.

(** C6 (as stated, refuted): on the segment from (100,0) to (101,0) with
    [length = 0.1], [length_sigma = 0] and draws 0, the last offset kept is
    1 - 2^-53, below the length 1 of the segment, and [interpolate] rounds its
    point to (101,0): the far endpoint [b] is returned. *)
Lemma random_phase_returns_far_endpoint :
  random_phase_splits (prng_const 0) 20 (mkPoint 100 0) (mkPoint 101 0) tenth 0 "seed" =
    Returns [0; 0x1.999999999999ap-4; 0x1.999999999999ap-3; 0x1.3333333333334p-2;
             0x1.999999999999ap-2; 0x1.0000000000000p-1; 0x1.3333333333333p-1;
             0x1.6666666666666p-1; 0x1.9999999999999p-1; 0x1.cccccccccccccp-1;
             0x1.fffffffffffffp-1] /\
  (0x1.fffffffffffffp-1 <? distance (mkPoint 100 0) (mkPoint 101 0)) = true /\
  split_segment_random_phase (prng_const 0) 20 (mkPoint 100 0) (mkPoint 101 0) tenth 0
                             "seed" =
    Returns [mkPoint 100 0; mkPoint 0x1.9066666666666p+6 0; mkPoint 0x1.90ccccccccccdp+6 0;
             mkPoint 0x1.9133333333333p+6 0; mkPoint 0x1.919999999999ap+6 0;
             mkPoint 0x1.9200000000000p+6 0; mkPoint 0x1.9266666666666p+6 0;
             mkPoint 0x1.92ccccccccccdp+6 0; mkPoint 0x1.9333333333333p+6 0;
             mkPoint 0x1.939999999999ap+6 0; mkPoint 101 0] /\
  interpolate (mkPoint 100 0) (mkPoint 101 0) 0x1.fffffffffffffp-1 false = mkPoint 101 0.
Proof. repeat split; vm_compute; reflexivity. Qed.

(** C6 (amended): in [split_segment_random_phase], a first offset
    [length * u0] for which [progress >= distance] holds gives the empty
    sequence, and every offset that is returned has failed that test: it
    compares below the length of the segment.  (Where the interpolated point
    lands is not part of the statement.) *)
Theorem random_phase_offsets_below_length (g : PRNG) (fuel : nat) (a b : Point)
        (length length_sigma : float) (seed : string) :
  ((distance a b <=? length * uniformFloat g [seed; "phase"%string]) = true ->
   split_segment_random_phase g fuel a b length length_sigma seed = Returns []) /\
  (forall splits,
      random_phase_splits g fuel a b length length_sigma seed = Returns splits ->
      Forall (fun x => (distance a b <=? x) = false) splits /\
      split_segment_random_phase g fuel a b length length_sigma seed =
        Returns (map (fun x => interpolate a b x false) splits)).
Proof.
  split.
  - intros Hfar. unfold split_segment_random_phase, random_phase_splits.
    rewrite Hfar. reflexivity.
  - intros splits Hrun. split.
    + revert Hrun. unfold random_phase_splits.
      destruct (distance a b <=? length * uniformFloat g [seed; "phase"%string]) eqn:Htest.
      * intros H. injection H as <-. constructor.
      * apply random_phase_loop_keeps_tested. constructor; [exact Htest | constructor].
    + unfold split_segment_random_phase. rewrite Hrun. reflexivity.
Qed.

Lemma random_phase_offsets_below_length_witness :
  Forall (fun x => (distance (mkPoint 0 0) (mkPoint 2 0) <=? x) = false) [0.5; 1.5] /\
  split_segment_random_phase (prng_const 0.5) 5 (mkPoint 0 0) (mkPoint 2 0) 1 0 "seed" =
    Returns (map (fun x => interpolate (mkPoint 0 0) (mkPoint 2 0) x false) [0.5; 1.5]).
Proof.
  apply (proj2 (random_phase_offsets_below_length (prng_const 0.5) 5 (mkPoint 0 0)
                  (mkPoint 2 0) 1 0 "seed")).
  vm_compute. reflexivity.
Defined.

(** C4: on the path from (0,0) to (1,0) with a stitch length of 0.1 the
    section has length 1, [num_stitches] is 10 and the spacing is 0.1, yet
    the accumulated distance 1 - 2^-53 is still below the length of the
    segment and an eleventh stitch is made there: the output has 12 points
    instead of 11, and its last two points are 2^-53 apart. *)
Theorem running_stitch_extra_stitch :
  running_stitch simplify_keep_all 20 [mkPoint 0 0; mkPoint 1 0] tenth 0 =
    Returns [mkPoint 0 0; mkPoint 0x1.999999999999ap-4 0; mkPoint 0x1.999999999999ap-3 0;
             mkPoint 0x1.3333333333334p-2 0; mkPoint 0x1.999999999999ap-2 0;
             mkPoint 0x1.0000000000000p-1 0; mkPoint 0x1.3333333333333p-1 0;
             mkPoint 0x1.6666666666666p-1 0; mkPoint 0x1.9999999999999p-1 0;
             mkPoint 0x1.cccccccccccccp-1 0; mkPoint 0x1.fffffffffffffp-1 0;
             mkPoint 1 0] /\
  linestring_length [mkPoint 0 0; mkPoint 1 0] = 1 /\
  ceil (linestring_length [mkPoint 0 0; mkPoint 1 0] / tenth) = Returns 10%Z /\
  linestring_length [mkPoint 0 0; mkPoint 1 0] / of_int 10 = tenth /\
  distance (mkPoint 0x1.fffffffffffffp-1 0) (mkPoint 1 0) = 0x1p-53.
Proof. repeat split; vm_compute; reflexivity. Qed.

(** Where rounding does not interfere the two models agree: the path from
    (0,0) to (10,0) with a stitch length of 3. *)
Example running_stitch_ten_by_three_binary64 :
  running_stitch simplify_keep_all 20 [mkPoint 0 0; mkPoint 10 0] 3 0 =
  Returns [mkPoint 0 0; mkPoint 2.5 0; mkPoint 5 0; mkPoint 7.5 0; mkPoint 10 0].
Proof. vm_compute. reflexivity. Qed.
End Binary64Facts.
